(** * DataBase.py: a persistent key-value store with reader/writer coordination

  The development follows the three classes of [DataBase.py]:

  - [DataBase]: the in-memory mapping ([set_value], [get_value], [delete]);
  - [SerializedDataBase]: [save] / [load] of the whole mapping through
    [pickle] to the file named [self.filename];
  - [SynchronizedDataBase]: [value_set], [value_get], [value_delete], which
    wrap the above in a lock / semaphore protocol.

  Single calls are embedded as functions in a state-and-exception monad over
  the attributes of [self] and the file system.  Concurrent executions are
  embedded as an interleaving step relation over a pool of calls, one atomic
  step per statement of the source. *)

From stdpp Require Import gmap strings list fin_maps functions.

(** ** Python values *)

(** The objects stored as values.  The store never inspects a value, so atoms
  suffice; [PyNone] is Python's [None], which is also what a method returns
  when it falls off its end. *)
Inductive value : Type :=
| PyNone
| PyBool (b : bool)
| PyInt (z : Z)
| PyStr (s : string).

(** The exceptions that the modelled statements can raise.  [NotHeld] is
    what [release()] raises on a lock that is not held ([RuntimeError] from
    [threading], [ValueError] from [multiprocessing]). *)
Inductive exn : Type :=
| FileNotFoundError
| EOFError
| UnpicklingError
| AttributeError (attr : string)
| NotHeld.

(** ** class DataBase *)

Module DataBase.
Section DataBase.
(** Keys are the hashable objects, identified up to Python's [==]
    (which is how a [dict] identifies them). *)
Context {K : Type} `{Countable K}.

(** [key in self.data] *)
Definition contains (key : K) (data : gmap K value) : bool :=
  match data !! key with
  | Some _ => true
  | None => false
  end.

(** [self.data.get(key, None)] *)
Definition dict_get (key : K) (data : gmap K value) : value :=
  default PyNone (data !! key).

(** [self.data.pop(key, None)]: the value and the dict without the key. *)
Definition dict_pop (key : K) (data : gmap K value) : value * gmap K value :=
  (default PyNone (data !! key), base.delete key data).

(** [DataBase.__init__]: [self.data = {}] *)
Definition init : gmap K value := ∅.

(** [DataBase.set_value]: the returned bool and the new [self.data]. *)
Definition set_value (key : K) (v : value) (data : gmap K value)
  : bool * gmap K value :=
  if contains key data then (false, data)
  else (true, <[key := v]> data).

(** [DataBase.get_value]: falls off the end (returns [None]) when the key
    is absent. *)
Definition get_value (key : K) (data : gmap K value) : value :=
  if contains key data then dict_get key data
  else PyNone.

(** [DataBase.delete]: the returned object and the new [self.data]. *)
Definition delete (key : K) (data : gmap K value) : value * gmap K value :=
  if contains key data then dict_pop key data
  else (PyNone, data).

End DataBase.
End DataBase.


(** ** The [pickle] module and the file system *)

(** [pickle] is a library outside the repository.  A [blob] is what a file
    holds; [pickle_dump] is what [pickle.dump(d, f)] writes for a dict [d],
    [pickle_load] is what [pickle.load(f)] makes of a file's contents: the
    dict it decodes to, or the exception it raises ([EOFError] on an empty
    file, [UnpicklingError] on contents that are no pickle).  [blob_empty] is
    the zero-length file that [open(path, 'wb')] leaves before anything is
    written.  The file is written by [save] alone, so contents that unpickle
    are taken to unpickle to a dict; and the stored values are picklable, so
    [pickle.dump] does not raise. *)
Class Pickle (K : Type) `{Countable K} : Type := {
  blob : Type;
  blob_empty : blob;
  pickle_dump : gmap K value → blob;
  pickle_load : blob → exn + gmap K value;
}.

(** What the library promises: loading a dumped dict gives it back. *)
Class PickleRoundTrip (K : Type) `{Pickle K} : Prop :=
  pickle_load_dump : ∀ d : gmap K value, pickle_load (pickle_dump d) = inr d.

(** The three locks of a [SynchronizedDataBase]. *)
Inductive lock_attr : Type :=
| DataLock
| ReadLock
| WriteLock.

Definition lock_name (l : lock_attr) : string :=
  match l with
  | DataLock => "data_lock"
  | ReadLock => "read_lock"
  | WriteLock => "write_lock"
  end.

Section State.
Context {K : Type} `{Pickle K}.

(** What a call does to the synchronisation primitives and to the files, in
    the order it does it. *)
Inductive event : Type :=
| EvAcquire (l : lock_attr)
| EvRelease (l : lock_attr)
| EvSemAcquire
| EvSemRelease
| EvRead (path : string)
| EvWrite (path : string) (b : blob).

(** The attributes of [self], then the part of the environment that the
    methods touch.  An attribute that [__init__] may leave unassigned is an
    [option]; a lock is [true] while held; a semaphore is its counter. *)
Record State : Type := mkState {
  data : gmap K value;
  filename : string;
  data_lock : option bool;
  read_limit : option nat;
  read_lock : option bool;
  write_lock : option bool;
  read_semaphore : option nat;
  fs : gmap string blob;
  log : list event;
}.

Definition set_data (d : gmap K value) (s : State) : State :=
  mkState d (filename s) (data_lock s) (read_limit s) (read_lock s)
    (write_lock s) (read_semaphore s) (fs s) (log s).

Definition set_filename (f : string) (s : State) : State :=
  mkState (data s) f (data_lock s) (read_limit s) (read_lock s)
    (write_lock s) (read_semaphore s) (fs s) (log s).

Definition set_read_limit (n : option nat) (s : State) : State :=
  mkState (data s) (filename s) (data_lock s) n (read_lock s)
    (write_lock s) (read_semaphore s) (fs s) (log s).

Definition set_read_semaphore (n : option nat) (s : State) : State :=
  mkState (data s) (filename s) (data_lock s) (read_limit s) (read_lock s)
    (write_lock s) n (fs s) (log s).

Definition set_fs (m : gmap string blob) (s : State) : State :=
  mkState (data s) (filename s) (data_lock s) (read_limit s) (read_lock s)
    (write_lock s) (read_semaphore s) m (log s).

Definition emit (ev : event) (s : State) : State :=
  mkState (data s) (filename s) (data_lock s) (read_limit s) (read_lock s)
    (write_lock s) (read_semaphore s) (fs s) (log s ++ [ev]).

Definition get_lock (l : lock_attr) (s : State) : option bool :=
  match l with
  | DataLock => data_lock s
  | ReadLock => read_lock s
  | WriteLock => write_lock s
  end.

Definition set_lock (l : lock_attr) (b : option bool) (s : State) : State :=
  match l with
  | DataLock =>
      mkState (data s) (filename s) b (read_limit s) (read_lock s)
        (write_lock s) (read_semaphore s) (fs s) (log s)
  | ReadLock =>
      mkState (data s) (filename s) (data_lock s) (read_limit s) b
        (write_lock s) (read_semaphore s) (fs s) (log s)
  | WriteLock =>
      mkState (data s) (filename s) (data_lock s) (read_limit s) (read_lock s)
        b (read_semaphore s) (fs s) (log s)
  end.

(** ** The monad of a single call *)

(** A call returns, raises, or waits for ever on a primitive that no one is
    there to release. *)
Inductive outcome (A : Type) : Type :=
| Returns (a : A) (s : State)
| Raises (e : exn) (s : State)
| Blocks (s : State).
Global Arguments Returns {A} a s.
Global Arguments Raises {A} e s.
Global Arguments Blocks {A} s.

Definition M (A : Type) : Type := State → outcome A.

Definition ret {A} (a : A) : M A := λ s, Returns a s.

Definition bind {A B} (m : M A) (k : A → M B) : M B :=
  λ s, match m s with
       | Returns a s' => k a s'
       | Raises e s' => Raises e s'
       | Blocks s' => Blocks s'
       end.

Definition raise {A} (e : exn) : M A := λ s, Raises e s.

Definition modify (f : State → State) : M unit := λ s, Returns tt (f s).

Definition gets {A} (f : State → A) : M A := λ s, Returns (f s) s.

(** [self.attr] for an attribute that may be unassigned. *)
Definition getattr {A} (name : string) (f : State → option A) : M A :=
  λ s, match f s with
       | Some a => Returns a s
       | None => Raises (AttributeError name) s
       end.

(** [try: body except <the exceptions that handler accepts>: ...] *)
Definition try_except {A} (body : M A) (handler : exn → option (M A)) : M A :=
  λ s, match body s with
       | Raises e s' =>
           match handler e with
           | Some h => h s'
           | None => Raises e s'
           end
       | o => o
       end.

(** [try: body finally: cleanup] *)
Definition finally {A} (body : M A) (cleanup : M unit) : M A :=
  λ s, match body s with
       | Returns a s' => bind cleanup (λ _, ret a) s'
       | Raises e s' => bind cleanup (λ _, raise e) s'
       | Blocks s' => Blocks s'
       end.

(** [for _ in range(n): body] *)
Fixpoint for_range (n : nat) (body : M unit) : M unit :=
  match n with
  | 0 => ret tt
  | S n' => bind body (λ _, for_range n' body)
  end.

(** Calling a [DataBase] method, which touches [self.data] alone. *)
Definition on_data {A} (f : gmap K value → A * gmap K value) : M A :=
  λ s, let '(a, d) := f (data s) in Returns a (set_data d s).

End State.

Global Arguments State K {_ _ _}.
Global Arguments event K {_ _ _}.
Global Arguments M K {_ _ _} A.

Global Instance M_ret {K} `{Pickle K} : MRet (M K) := λ A, ret.
Global Instance M_bind {K} `{Pickle K} : MBind (M K) := λ A B k m, bind m k.

(** ** class SerializedDataBase *)

Module SerializedDataBase.
Section SerializedDataBase.
Context {K : Type} `{Pickle K}.

(** [open(self.filename, 'rb')]: the contents of the file. *)
Definition open_rb : M K blob :=
  λ s, match fs s !! filename s with
       | Some b => Returns b (emit (EvRead (filename s)) s)
       | None => Raises FileNotFoundError s
       end.

(** [pickle.load(f)] *)
Definition load_pickle (b : blob) : M K (gmap K value) :=
  match pickle_load b with
  | inr d => mret d
  | inl e => raise e
  end.

(** [SerializedDataBase.save]:
    [with open(self.filename, 'wb') as f: pickle.dump(self.data, f)] *)
Definition save : M K unit :=
  λ s, let b := pickle_dump (data s) in
       Returns tt (emit (EvWrite (filename s) b)
                     (set_fs (<[filename s := b]> (fs s)) s)).

(** [except (FileNotFoundError, EOFError)] *)
Definition load_handler (e : exn) : option (M K unit) :=
  match e with
  | FileNotFoundError | EOFError => Some (modify (set_data ∅))
  | _ => None
  end.

(** [SerializedDataBase.load] *)
Definition load : M K unit :=
  try_except
    (b ← open_rb;
     d ← load_pickle b;
     modify (set_data d))
    load_handler.

(** [SerializedDataBase.__init__], run on the object under construction. *)
Definition init (file : string) : M K unit :=
  modify (set_data DataBase.init);;
  modify (set_filename file);;
  load.

End SerializedDataBase.
End SerializedDataBase.

(** ** class SynchronizedDataBase *)

Module SynchronizedDataBase.
Section SynchronizedDataBase.
Context {K : Type} `{Pickle K}.

(** [lock.acquire()] on [self.<l>]; a [Lock] is not reentrant. *)
Definition acquire (l : lock_attr) : M K unit :=
  held ← getattr (lock_name l) (get_lock l);
  if held : bool then Blocks
  else modify (λ s, emit (EvAcquire l) (set_lock l (Some true) s)).

(** [lock.release()] on [self.<l>]. *)
Definition release (l : lock_attr) : M K unit :=
  held ← getattr (lock_name l) (get_lock l);
  if held : bool
  then modify (λ s, emit (EvRelease l) (set_lock l (Some false) s))
  else raise NotHeld.

(** [with self.<l>: body] *)
Definition with_lock {A} (l : lock_attr) (body : M K A) : M K A :=
  acquire l;;
  finally body (release l).

(** [self.read_semaphore.acquire()], which returns [True]. *)
Definition sem_acquire : M K bool :=
  n ← getattr "read_semaphore" read_semaphore;
  match n with
  | 0 => Blocks
  | S n' =>
      modify (λ s, emit EvSemAcquire (set_read_semaphore (Some n') s));;
      mret true
  end.

(** [self.read_semaphore.release()]; a [Semaphore] has no upper bound. *)
Definition sem_release : M K unit :=
  n ← getattr "read_semaphore" read_semaphore;
  modify (λ s, emit EvSemRelease (set_read_semaphore (Some (S n)) s)).

(** [for _ in range(self.read_limit): self.read_semaphore.acquire()] *)
Definition drain : M K unit :=
  n ← getattr "read_limit" read_limit;
  for_range n (sem_acquire;; mret tt).

(** [for _ in range(self.read_limit): self.read_semaphore.release()] *)
Definition refill : M K unit :=
  n ← getattr "read_limit" read_limit;
  for_range n sem_release.

(** [self.read_limit = 10] *)
Definition read_limit_default : nat := 10.

(** [SynchronizedDataBase.__init__], run on the object under construction.
    The primitives of [threading] and of [multiprocessing] behave alike
    here: a lock is free, a semaphore holds [self.read_limit] permits. *)
Definition init (file mode : string) : M K unit :=
  SerializedDataBase.init file;;
  modify (set_lock DataLock (Some false));;
  modify (set_read_limit (Some read_limit_default));;
  if String.eqb mode "threads" then
    modify (set_lock ReadLock (Some false));;
    modify (set_lock WriteLock (Some false));;
    limit ← getattr "read_limit" read_limit;
    modify (set_read_semaphore (Some limit))
  else if String.eqb mode "processes" then
    modify (set_lock ReadLock (Some false));;
    modify (set_lock WriteLock (Some false));;
    limit ← getattr "read_limit" read_limit;
    modify (set_read_semaphore (Some limit))
  else mret tt.

(** [SynchronizedDataBase.value_set] *)
Definition value_set (key : K) (v : value) : M K bool :=
  with_lock WriteLock
    (with_lock ReadLock
       (drain;;
        result ← with_lock DataLock
                   (result ← on_data (DataBase.set_value key v);
                    SerializedDataBase.save;;
                    mret result);
        refill;;
        mret result)).

(** [SynchronizedDataBase.value_get]; the [if] has no [else], and
    [acquire()] returns [True] whenever it returns. *)
Definition value_get (key : K) : M K value :=
  ok ← sem_acquire;
  if ok : bool then
    SerializedDataBase.load;;
    data ← gets (λ s, DataBase.get_value key (data s));
    sem_release;;
    mret data
  else mret PyNone.

(** [SynchronizedDataBase.value_delete] *)
Definition value_delete (key : K) : M K value :=
  with_lock WriteLock
    (with_lock ReadLock
       (drain;;
        result ← with_lock DataLock
                   (result ← on_data (DataBase.delete key);
                    SerializedDataBase.save;;
                    mret result);
        refill;;
        mret result)).

End SynchronizedDataBase.
End SynchronizedDataBase.

(** ** Concurrent calls *)

(** Several calls run against one file and one set of primitives, each in
    its own thread or process.  A call advances one statement at a time; the
    statements of different calls interleave in any order.  A call that
    waits on a lock or on the semaphore takes no step until it can. *)
Module Concurrent.
Section Concurrent.
Context {K : Type} `{Pickle K}.

Inductive call : Type :=
| ValueSet (key : K) (v : value)
| ValueGet (key : K)
| ValueDelete (key : K).

(** Where a call stands: the statement it runs next, with the values of its
    local variables.  The first group is the write path of [value_set] and
    [value_delete], the second the path of [value_get]. *)
Inductive pc : Type :=
| Start
    (* before [with self.write_lock:] or [self.read_semaphore.acquire()] *)
| WriteLocked
    (* before [with self.read_lock:] *)
| Draining (i : nat)
    (* in the first [for] loop, [i] permits acquired *)
| EnteringData
    (* before [with self.data_lock:] *)
| Mutating
    (* before [result = super().set_value(key, value)] or [.delete(key)] *)
| Opening (result : value)
    (* in [save], before [open(self.filename, 'wb')] *)
| Dumping (result : value)
    (* in [save], before [pickle.dump(self.data, f)] *)
| LeavingData (result : value)
    (* at the end of [with self.data_lock:] *)
| Refilling (result : value) (j : nat)
    (* in the second [for] loop, [j] permits released *)
| LeavingRead (result : value)
    (* at the end of [with self.read_lock:] *)
| LeavingWrite (result : value)
    (* at the end of [with self.write_lock:] *)
| Unwinding (e : exn) (locks : list lock_attr)
    (* [e] on its way out of the [with] blocks of [locks] *)
| Loading
    (* in [load], before the file is opened and unpickled *)
| Assigning (d : gmap K value)
    (* in [load], before [self.data = ...] *)
| Looking
    (* before [data = super().get_value(key)] *)
| Releasing (result : value)
    (* before [self.read_semaphore.release()] *)
| Returned (result : value)
| Raised (e : exn).

(** [open(self.filename, 'wb')] leaves the file empty until the dump. *)
Definition truncate (s : State K) : State K :=
  set_fs (<[filename s := blob_empty]> (fs s)) s.

(** The right-hand side of [self.data = pickle.load(f)] under the [try] of
    [load], or [{}] from its [except] clause. *)
Definition fetch : M K (gmap K value) :=
  try_except
    (b ← SerializedDataBase.open_rb;
     SerializedDataBase.load_pickle b)
    (λ e, match e with
          | FileNotFoundError | EOFError => Some (mret ∅)
          | _ => None
          end).

(** The statement at a program point, which yields the next point. *)
Definition stmt (job : call) (p : pc) : option (M K pc) :=
  match p with
  | Start =>
      match job with
      | ValueGet _ => Some (SynchronizedDataBase.sem_acquire;; mret Loading)
      | _ => Some (SynchronizedDataBase.acquire WriteLock;; mret WriteLocked)
      end
  | WriteLocked =>
      Some (SynchronizedDataBase.acquire ReadLock;; mret (Draining 0))
  | Draining i =>
      Some (n ← getattr "read_limit" read_limit;
            if decide (i < n)
            then SynchronizedDataBase.sem_acquire;; mret (Draining (S i))
            else mret EnteringData)
  | EnteringData =>
      Some (SynchronizedDataBase.acquire DataLock;; mret Mutating)
  | Mutating =>
      match job with
      | ValueSet key v =>
          Some (result ← on_data (DataBase.set_value key v);
                mret (Opening (PyBool result)))
      | ValueDelete key =>
          Some (result ← on_data (DataBase.delete key);
                mret (Opening result))
      | ValueGet _ => None
      end
  | Opening result => Some (modify truncate;; mret (Dumping result))
  | Dumping result => Some (SerializedDataBase.save;; mret (LeavingData result))
  | LeavingData result =>
      Some (SynchronizedDataBase.release DataLock;; mret (Refilling result 0))
  | Refilling result j =>
      Some (n ← getattr "read_limit" read_limit;
            if decide (j < n)
            then SynchronizedDataBase.sem_release;;
                 mret (Refilling result (S j))
            else mret (LeavingRead result))
  | LeavingRead result =>
      Some (SynchronizedDataBase.release ReadLock;; mret (LeavingWrite result))
  | LeavingWrite result =>
      Some (SynchronizedDataBase.release WriteLock;; mret (Returned result))
  | Loading => Some (d ← fetch; mret (Assigning d))
  | Assigning d => Some (modify (set_data d);; mret Looking)
  | Looking =>
      match job with
      | ValueGet key =>
          Some (x ← gets (λ s, DataBase.get_value key (data s));
                mret (Releasing x))
      | _ => None
      end
  | Releasing result =>
      Some (SynchronizedDataBase.sem_release;; mret (Returned result))
  | Unwinding _ _ | Returned _ | Raised _ => None
  end.

(** The [with] blocks that enclose a program point, innermost first: the
    locks that an exception raised there releases on its way out. *)
Definition with_stack (p : pc) : list lock_attr :=
  match p with
  | WriteLocked | LeavingRead _ => [WriteLock]
  | Draining _ | EnteringData | LeavingData _ | Refilling _ _ =>
      [ReadLock; WriteLock]
  | Mutating | Opening _ | Dumping _ => [DataLock; ReadLock; WriteLock]
  | _ => []
  end.

Definition unwind (e : exn) (locks : list lock_attr) : pc :=
  match locks with
  | [] => Raised e
  | _ => Unwinding e locks
  end.

(** One step of a call at [p] on the state it sees; [None] when the call
    has finished or has to wait. *)
Definition next (job : call) (p : pc) (s : State K) : option (pc * State K) :=
  match p with
  | Unwinding e [] => Some (Raised e, s)
  | Unwinding e (l :: locks) =>
      match SynchronizedDataBase.release l s with
      | Returns _ s' => Some (unwind e locks, s')
      | Raises e' s' => Some (unwind e' locks, s')
      | Blocks _ => None
      end
  | _ =>
      match stmt job p with
      | None => None
      | Some m =>
          match m s with
          | Returns p' s' => Some (p', s')
          | Raises e s' => Some (unwind e (with_stack p), s')
          | Blocks _ => None
          end
      end
  end.

(** A call in progress: the process it runs in (threads of one process
    share [self.data], processes have a copy each), what it was asked, and
    where it stands. *)
Record thread : Type := mkThread {
  proc : nat;
  job : call;
  at_pc : pc;
}.

(** The file system, the primitives and the log are shared (the [data]
    field of [shared] is a scratch slot); [heaps] holds [self.data] of each
    process. *)
Record config : Type := mkConfig {
  shared : State K;
  heaps : nat → gmap K value;
  pool : list thread;
}.

(** Thread [i] takes a step. *)
Definition step (i : nat) (c : config) : option config :=
  t ← pool c !! i;
  '(p', s') ← next (job t) (at_pc t) (set_data (heaps c (proc t)) (shared c));
  Some (mkConfig s'
          (<[proc t := data s']> (heaps c))
          (<[i := mkThread (proc t) (job t) p']> (pool c))).

Definition steps (c c' : config) : Prop := ∃ i, step i c = Some c'.

(** Running a schedule; a thread that cannot step when its turn comes is
    passed over. *)
Fixpoint run (schedule : list nat) (c : config) : config :=
  match schedule with
  | [] => c
  | i :: rest => run rest (default c (step i c))
  end.

(** The calls [jobs], each with its process, about to start on a store that
    [__init__] has just built. *)
Definition launch (s : State K) (heaps : nat → gmap K value)
    (jobs : list (nat * call)) : config :=
  mkConfig s heaps ((λ pj, mkThread pj.1 pj.2 Start) <$> jobs).

(** Inside the mutate-and-persist part of a write call. *)
Definition writing (p : pc) : bool :=
  match p with
  | Mutating | Opening _ | Dumping _ | LeavingData _ => true
  | _ => false
  end.

(** Inside the restore-and-lookup part of a read call. *)
Definition reading (p : pc) : bool :=
  match p with
  | Loading | Assigning _ | Looking | Releasing _ => true
  | _ => false
  end.

(** The permits of the semaphore that a call holds at a program point. *)
Definition permits (limit : nat) (p : pc) : nat :=
  match p with
  | Draining i => i `min` limit
  | EnteringData | Mutating | Opening _ | Dumping _ | LeavingData _ => limit
  | Refilling _ j => limit - j
  | Loading | Assigning _ | Looking | Releasing _ => 1
  | _ => 0
  end.

End Concurrent.

Global Arguments call K : clear implicits.
Global Arguments pc K {_ _}.
Global Arguments thread K {_ _}.
Global Arguments config K {_ _ _}.

End Concurrent.

(** ** A reference instance of the [pickle] interface *)

(** Used to run the model on concrete inputs: a file holds the pickle of a
    dict, or nothing at all, or bytes that are no pickle. *)
Module Reference.

Inductive ref_blob (K : Type) `{Countable K} : Type :=
| Pickled (d : gmap K value)
| Empty
| Garbage.
Global Arguments Pickled {K _ _} d.
Global Arguments Empty {K _ _}.
Global Arguments Garbage {K _ _}.

Definition ref_load {K : Type} `{Countable K} (b : ref_blob K)
  : exn + gmap K value :=
  match b with
  | Pickled d => inr d
  | Empty => inl EOFError
  | Garbage => inl UnpicklingError
  end.

#[export] Instance ref_pickle (K : Type) `{Countable K} : Pickle K := {|
  blob := ref_blob K;
  blob_empty := Empty;
  pickle_dump := Pickled;
  pickle_load := ref_load;
|}.

#[export] Instance ref_round_trip (K : Type) `{Countable K}
  : PickleRoundTrip K.
Proof. intros d. reflexivity. Qed.

End Reference.

(** * Vocabulary of the statements *)

(** ** Single calls *)

Section Vocabulary.
Context {K : Type} `{Pickle K}.
Implicit Types (s : State K) (d : gmap K value) (l : lock_attr).

(** Whether the [except] clause of [load] catches an exception. *)
Definition caught (e : exn) : bool :=
  match e with
  | FileNotFoundError | EOFError => true
  | _ => false
  end.

(** The part of the state that the mapping and the file make up. *)
Definition same_store s s' : Prop :=
  data s' = data s ∧ filename s' = filename s ∧ fs s' = fs s.

(** A computation that, when it returns, has left that part as it was. *)
Definition keeps_store {A} (m : M K A) : Prop :=
  ∀ s a s', m s = Returns a s' → same_store s s'.

(** The body shared by [value_set] and [value_delete], with the call to the
    parent's method as a parameter. *)
Definition write_call {A} (mutate : gmap K value → A * gmap K value)
  : M K A :=
  SynchronizedDataBase.with_lock WriteLock
    (SynchronizedDataBase.with_lock ReadLock
       (SynchronizedDataBase.drain;;
        result ← SynchronizedDataBase.with_lock DataLock
                   (result ← on_data mutate;
                    SerializedDataBase.save;;
                    mret result);
        SynchronizedDataBase.refill;;
        mret result)).

(** The blob on disk is the dump of the snapshot in memory. *)
Definition persisted s : Prop :=
  fs s !! filename s = Some (pickle_dump (data s)).

(** No call is in progress: the three locks are free and the semaphore holds
    at least the [limit] permits that a writer drains ([limit + spare]). *)
Definition idle (limit spare : nat) s : Prop :=
  data_lock s = Some false ∧ read_lock s = Some false ∧
  write_lock s = Some false ∧ read_limit s = Some limit ∧
  read_semaphore s = Some (limit + spare).

(** The state with further events at the end of its log. *)
Definition add_log (evs : list (event K)) s : State K :=
  mkState (data s) (filename s) (data_lock s) (read_limit s) (read_lock s)
    (write_lock s) (read_semaphore s) (fs s) (log s ++ evs).

(** What a write call does to the primitives and the file, in order. *)
Definition protocol_trace (limit : nat) (path : string) (b : blob)
  : list (event K) :=
  [EvAcquire WriteLock; EvAcquire ReadLock]
  ++ replicate limit EvSemAcquire
  ++ [EvAcquire DataLock; EvWrite path b; EvRelease DataLock]
  ++ replicate limit EvSemRelease
  ++ [EvRelease ReadLock; EvRelease WriteLock].

(** The state a write call leaves when the mutation yields snapshot [d]. *)
Definition written (limit : nat) d s : State K :=
  add_log (protocol_trace limit (filename s) (pickle_dump d))
    (set_fs (<[filename s := pickle_dump d]> (fs s)) (set_data d s)).

(** The object before [__init__] has run, in a world with these files. *)
Definition fresh (files : gmap string blob) : State K :=
  mkState ∅ "" None None None None None files [].

(** What [pickle.load] makes of the backing file, if there is one. *)
Definition disk_snapshot s : option (exn + gmap K value) :=
  pickle_load <$> fs s !! filename s.

End Vocabulary.

(** ** Concurrent calls *)

Section ConcurrentVocabulary.
Context {K : Type} `{Pickle K}.
Import Concurrent.
Implicit Types (s : State K) (c : config K) (p : pc K) (t : thread K).

(** A call that runs alone for [n] steps from program point [p]. *)
Fixpoint solo (n : nat) (job : call K) p s : pc K * State K :=
  match n with
  | 0 => (p, s)
  | S n' =>
      match next job p s with
      | Some (p', s') => solo n' job p' s'
      | None => (p, s)
      end
  end.

(** The mutation that a write call asks of the parent class, returning the
    object that the call will return. *)
Definition mutation (job : call K)
  : option (gmap K value → value * gmap K value) :=
  match job with
  | ValueSet key v =>
      Some (λ d, (PyBool (DataBase.set_value key v d).1,
                  (DataBase.set_value key v d).2))
  | ValueDelete key => Some (DataBase.delete key)
  | ValueGet _ => None
  end.

(** The permits held by all the calls of a pool together. *)
Definition pool_permits (limit : nat) (ts : list (thread K)) : nat :=
  sum_list ((λ t, permits limit (at_pc t)) <$> ts).

(** The permits in the semaphore and those held by the calls never exceed
    the limit. *)
Definition balanced (limit : nat) c : Prop :=
  read_limit (shared c) = Some limit ∧
  ∃ n, read_semaphore (shared c) = Some n ∧
       n + pool_permits limit (pool c) ≤ limit.

(** No call is in its mutate-and-persist part while another is in its
    restore-and-lookup part. *)
Definition exclusive c : Prop :=
  ∀ i j ti tj,
    pool c !! i = Some ti → pool c !! j = Some tj →
    writing (at_pc ti) = true → reading (at_pc tj) = false.

(** A call in its mutate-and-persist part holds every permit. *)
Definition drained c : Prop :=
  ∀ i ti,
    pool c !! i = Some ti → writing (at_pc ti) = true →
    read_semaphore (shared c) = Some 0.

(** The snapshot that [load] would install from the file as it is now. *)
Definition on_disk s : exn + gmap K value :=
  match fs s !! filename s with
  | None => inr ∅
  | Some b =>
      match pickle_load b with
      | inr d => inr d
      | inl e => if caught e then inr ∅ else inl e
      end
  end.

(** What holds of a read call inside its restore-and-lookup part, given the
    snapshot on disk and [self.data] of its process: the dict it is about to
    assign, then [self.data], then the lookup result, come from the
    snapshot on disk. *)
Definition obs_at (job : call K) p (disk : exn + gmap K value)
    (heap : gmap K value) : Prop :=
  match p with
  | Assigning d => disk = inr d
  | Looking => disk = inr heap
  | Releasing x =>
      ∃ key d, job = ValueGet key ∧ disk = inr d ∧
               x = DataBase.get_value key d
  | _ => True
  end.

(** That, of every call of the pool. *)
Definition observed c : Prop :=
  ∀ j t, pool c !! j = Some t →
    obs_at (job t) (at_pc t) (on_disk (shared c)) (heaps c (proc t)).

(** The file is as it was at the start, or it holds the dump of a whole
    snapshot, unless some call stands between [open] and [dump]. *)
Definition settled (s0 : State K) c : Prop :=
  filename (shared c) = filename s0 ∧
  ((∃ i t r, pool c !! i = Some t ∧ at_pc t = Dumping r) ∨
   fs (shared c) !! filename s0 = fs s0 !! filename s0 ∨
   ∃ d, fs (shared c) !! filename s0 = Some (pickle_dump d)).

(** While a call is in its restore-and-lookup part, the file is as it was
    at the start or holds the dump of a whole snapshot. *)
Definition whole_when_read (s0 : State K) c : Prop :=
  ∀ j t, pool c !! j = Some t → reading (at_pc t) = true →
    fs (shared c) !! filename (shared c) = fs s0 !! filename s0 ∨
    ∃ d, fs (shared c) !! filename (shared c) = Some (pickle_dump d).

End ConcurrentVocabulary.

(** ** Accounting for locks and permits *)

Section MoreConcurrentVocabulary.
Context {K : Type} `{Pickle K}.
Import Concurrent.
Implicit Types (s : State K) (c : config K) (p : pc K) (t : thread K).

(** The locks that a call holds at a program point: those of the [with]
    blocks it is inside, the one it is about to leave included. *)
Definition holding p : list lock_attr :=
  match p with
  | WriteLocked | LeavingWrite _ => [WriteLock]
  | Draining _ | EnteringData | Refilling _ _ | LeavingRead _ =>
      [ReadLock; WriteLock]
  | Mutating | Opening _ | Dumping _ | LeavingData _ =>
      [DataLock; ReadLock; WriteLock]
  | Unwinding _ locks => locks
  | _ => []
  end.

Definition lock_eqb (a b : lock_attr) : bool :=
  match a, b with
  | DataLock, DataLock | ReadLock, ReadLock | WriteLock, WriteLock => true
  | _, _ => false
  end.

(** Whether (1 or 0) a call holds lock [l] at [p]. *)
Definition holds (l : lock_attr) p : nat :=
  if existsb (lock_eqb l) (holding p) then 1 else 0.

(** The program points that a call of a kind goes through when nothing
    raises on its write path; at [Raised] stands a read call whose [load]
    let an exception through. *)
Definition fits (job : call K) p : bool :=
  match job, p with
  | _, Start | _, Returned _ => true
  | ValueGet _, (Loading | Assigning _ | Looking | Releasing _) => true
  | ValueGet _, Raised e => negb (caught e)
  | (ValueSet _ _ | ValueDelete _),
    (WriteLocked | Draining _ | EnteringData | Mutating | Opening _
     | Dumping _ | LeavingData _ | Refilling _ _ | LeavingRead _
     | LeavingWrite _) => true
  | _, _ => false
  end.

(** The permits that a call has taken and not given back: those it holds,
    and the one that a read call keeps when it raises. *)
Definition owed (limit : nat) p : nat :=
  match p with
  | Raised _ => 1
  | _ => permits limit p
  end.

(** A quantity summed over the calls of a pool. *)
Definition pool_sum (f : pc K → nat) (ts : list (thread K)) : nat :=
  sum_list ((λ t, f (at_pc t)) <$> ts).

(** The state of the primitives accounts for the calls in progress: each
    lock is held exactly when one call holds it, the permits in the
    semaphore and those taken add up to the limit, and every call stands
    where its kind of call can stand. *)
Definition sound (limit : nat) c : Prop :=
  ∃ bd br bw n,
    data_lock (shared c) = Some bd ∧ read_lock (shared c) = Some br ∧
    write_lock (shared c) = Some bw ∧
    read_limit (shared c) = Some limit ∧
    read_semaphore (shared c) = Some n ∧
    pool_sum (holds DataLock) (pool c) = Nat.b2n bd ∧
    pool_sum (holds ReadLock) (pool c) = Nat.b2n br ∧
    pool_sum (holds WriteLock) (pool c) = Nat.b2n bw ∧
    n + pool_sum (owed limit) (pool c) = limit ∧
    Forall (λ t, fits (job t) (at_pc t) = true) (pool c).

Definition started p : bool :=
  match p with
  | Start => true
  | _ => false
  end.

Definition returned p : bool :=
  match p with
  | Returned _ => true
  | _ => false
  end.

Definition raised p : bool :=
  match p with
  | Raised _ => true
  | _ => false
  end.

(** Every call has returned. *)
Definition all_returned c : Prop :=
  Forall (λ t, returned (at_pc t) = true) (pool c).

(** Some call has raised. *)
Definition some_raised c : Prop :=
  Exists (λ t, raised (at_pc t) = true) (pool c).

(** Whether the statement at [p] can run, given the locks (held or not) and
    the permits in the semaphore. *)
Definition ready (job : call K) p (bd br bw : bool) (limit n : nat) : bool :=
  match p with
  | Start =>
      match job with
      | ValueGet _ => bool_decide (0 < n)
      | _ => negb bw
      end
  | WriteLocked => negb br
  | Draining i => bool_decide (i < limit → 0 < n)
  | EnteringData => negb bd
  | Returned _ | Raised _ | Unwinding _ _ => false
  | _ => true
  end.

End MoreConcurrentVocabulary.

(** ** Threads of one process *)

Section ThreadsVocabulary.
Context {K : Type} `{Pickle K}.
Import Concurrent.
Implicit Types (s : State K) (c : config K) (p : pc K) (t : thread K).

(** Between the mutation and the end of the dump: memory is ahead of the
    file. *)
Definition persisting p : bool :=
  match p with
  | Opening _ | Dumping _ => true
  | _ => false
  end.

(** The result that a write call has got from the parent's method. *)
Definition result_at p : option value :=
  match p with
  | Opening r | Dumping r | LeavingData r | Refilling r _ | LeavingRead r
  | LeavingWrite r | Returned r => Some r
  | _ => None
  end.

Definition is_delete (job : call K) : bool :=
  match job with
  | ValueDelete _ => true
  | _ => false
  end.

(** Calls that are threads of process [pr], none of them a [value_delete]. *)
Definition setters_and_getters (pr : nat) (ts : list (thread K)) : Prop :=
  Forall (λ t, proc t = pr ∧ is_delete (job t) = false) ts.

(** The file agrees with [self.data] unless a call is between its mutation
    and the end of its dump. *)
Definition agrees (pr : nat) c : Prop :=
  Forall (λ t, persisting (at_pc t) = false) (pool c) →
  on_disk (shared c) = inr (heaps c pr).

(** The key of every [value_set] that has got its result is bound, to the
    call's own value if the result is [True]. *)
Definition kept (pr : nat) c : Prop :=
  ∀ i t key v r,
    pool c !! i = Some t → job t = ValueSet key v →
    result_at (at_pc t) = Some r →
    is_Some (heaps c pr !! key) ∧
    (r = PyBool true → heaps c pr !! key = Some v).

End ThreadsVocabulary.

(** ** The self-test under [if __name__ == "__main__":] *)

Module Main.
Section Main.
Context `{Pickle Z}.

(** How the script ends when it does not run to its end: an [assert] fails
    at a line of the source, or a constructor lets an exception through
    (or waits, which no constructor does). *)
Inductive failure : Type :=
| AssertionError (line : nat)
| Uncaught (e : exn)
| Waits.

Definition key_ : Z := 0.
Definition value_ : value := PyInt 1.
Definition file_name : string := "test.pkl".

(** Python's [==] on the stored objects; [True == 1] and [False == 0]. *)
Definition py_eq (a b : value) : bool :=
  match a, b with
  | PyNone, PyNone => true
  | PyBool x, PyBool y => eqb x y
  | PyInt x, PyInt y => (x =? y)%Z
  | PyBool x, PyInt y | PyInt y, PyBool x => (Z.b2z x =? y)%Z
  | PyStr x, PyStr y => String.eqb x y
  | _, _ => false
  end.

(** The four lines that the script runs on each of its three objects, the
    first of them at [line]; they call the methods of [DataBase], which act
    on [self.data] alone.
<<
    assert db.set_value(key_, value_) is True
    assert db.get_value(key_) == value_
    db.delete(key_)
    assert db.get_value(key_) != value_
>> *)
Definition exercise (line : nat) (data : gmap Z value)
  : failure + gmap Z value :=
  let '(r, data) := DataBase.set_value key_ value_ data in
  if negb r then inl (AssertionError line)
  else if negb (py_eq (DataBase.get_value key_ data) value_)
  then inl (AssertionError (line + 1))
  else
    let '(_, data) := DataBase.delete key_ data in
    if py_eq (DataBase.get_value key_ data) value_
    then inl (AssertionError (line + 3))
    else inr data.

(** [SynchronizedDataBase(file_name, mode)] followed by the four lines. *)
Definition open_and_exercise (line : nat) (mode : string)
    (files : gmap string blob) : (failure + unit) * gmap string blob :=
  match SynchronizedDataBase.init file_name mode (fresh files) with
  | Raises e s => (inl (Uncaught e), fs s)
  | Blocks s => (inl Waits, fs s)
  | Returns _ db =>
      match exercise line (data db) with
      | inl f => (inl f, fs db)
      | inr _ => (inr (), fs db)
      end
  end.

(** The script: how it ends, and the files it leaves. *)
Definition main (files : gmap string blob)
  : (failure + unit) * gmap string blob :=
  match exercise 135 DataBase.init with
  | inl f => (inl f, files)
  | inr _ =>
      match open_and_exercise 141 "threads" files with
      | (inl f, files) => (inl f, files)
      | (inr _, files) => open_and_exercise 147 "processes" files
      end
  end.

End Main.
End Main.

(** ** Concrete stores and schedules *)

Module Demo.
Import Reference.

(** The state in which a call leaves the object and the world. *)
Definition state_of {K : Type} `{Pickle K} {A} (o : outcome A) : State K :=
  match o with
  | Returns _ s | Raises _ s | Blocks s => s
  end.

(** What a call returned, if it did. *)
Definition result_of {K : Type} `{Pickle K} {A} (o : outcome A) : option A :=
  match o with
  | Returns a _ => Some a
  | _ => None
  end.

(** [SynchronizedDataBase('test.pkl', 'threads')] where there is no file. *)
Definition store : State Z :=
  state_of (SynchronizedDataBase.init "test.pkl" "threads" (fresh ∅)).

(** The same object where the file holds the pickle of [{0: 1}]. *)
Definition store_on_pickle : State Z :=
  state_of (SynchronizedDataBase.init "test.pkl" "threads"
              (fresh {["test.pkl" := Pickled {[0%Z := PyInt 1]}]})).

(** A [SerializedDataBase] on a file whose bytes are no pickle. *)
Definition corrupt : State Z :=
  mkState ∅ "test.pkl" None None None None None
    {["test.pkl" := Garbage]} [].

End Demo.

Module ConcurrentDemo.
Import Concurrent.

(** A writer and a reader, threads of one process, on a store whose file
    holds the pickle of [{0: 1}]. *)
Definition two_calls : config Z :=
  launch Demo.store_on_pickle (λ _, data Demo.store_on_pickle)
    [(0, ValueSet 1%Z (PyInt 2)); (0, ValueGet 0%Z)].

(** The writer goes first: once it has drained the permits the reader,
    whenever its turn comes, has to wait. *)
Definition writer_first : list nat := replicate 14 0 ++ [1; 0; 1; 0; 1].

(** The reader goes first: the writer gets nine permits and waits for the
    tenth. *)
Definition reader_first : list nat := [1; 1] ++ replicate 20 0.

(** Both to the end, the reader in the middle of the writer's drain. *)
Definition both : list nat :=
  replicate 5 0 ++ replicate 5 1 ++ replicate 26 0.

End ConcurrentDemo.

Module MoreDemo.
Import Reference Concurrent.

(** The store of [Demo.store] after its file has been overwritten with
    bytes that are no pickle. *)
Definition store_corrupted : State Z :=
  set_fs {["test.pkl" := Garbage]} Demo.store.

(** A writer and a reader as in [ConcurrentDemo.two_calls], given as the
    calls of one process. *)
Definition calls : list (call Z) := [ValueSet 1%Z (PyInt 2); ValueGet 0%Z].

Definition threads : config Z :=
  launch Demo.store_on_pickle (λ _, data Demo.store_on_pickle)
    ((λ j, (0, j)) <$> calls).

End MoreDemo.

(** * Tactics *)

(** Unfold the monad. *)
Ltac unfold_monad :=
  unfold mbind, M_bind, mret, M_ret, bind, ret, raise, modify, gets, getattr
    in *.

(** Unfold the statements of the classes, down to the monad. *)
Ltac unfold_prims :=
  unfold Concurrent.fetch, try_except, Concurrent.truncate,
    SynchronizedDataBase.acquire, SynchronizedDataBase.release,
    SynchronizedDataBase.sem_acquire, SynchronizedDataBase.sem_release,
    SerializedDataBase.save, SerializedDataBase.open_rb,
    SerializedDataBase.load_pickle, on_data in *;
  unfold_monad.

(** Unfold a step of a concurrent call as well. *)
Ltac unfold_stmt :=
  unfold Concurrent.next, Concurrent.stmt in *; unfold_prims.

(** Run a call on a state whose fields are known, one statement after the
    other. *)
Ltac crank :=
  repeat (progress (unfold_prims; simpl;
                    try (destruct (decide _) as [|_]; [lia|]))).

(** * Properties of the mapping (class [DataBase]) *)

Section DataBase_facts.
Context {K : Type} `{Countable K}.
Implicit Types (key k : K) (data d : gmap K value) (v w : value).

Lemma contains_true key data :
  DataBase.contains key data = true ↔ is_Some (data !! key).
Proof.
  unfold DataBase.contains.
  destruct (data !! key) eqn:E; split; intros Hx; eauto.
  - discriminate.
  - by destruct Hx.
Qed.

Lemma contains_false key data :
  DataBase.contains key data = false ↔ data !! key = None.
Proof.
  unfold DataBase.contains. by destruct (data !! key) eqn:E.
Qed.

Lemma get_value_lookup key data :
  DataBase.get_value key data = default PyNone (data !! key).
Proof.
  unfold DataBase.get_value, DataBase.contains, DataBase.dict_get.
  by destruct (data !! key).
Qed.

Lemma set_value_absent key v data :
  data !! key = None →
  DataBase.set_value key v data = (true, <[key := v]> data).
Proof.
  intros E. unfold DataBase.set_value.
  by rewrite (proj2 (contains_false _ _) E).
Qed.

Lemma set_value_present key v w data :
  data !! key = Some w → DataBase.set_value key v data = (false, data).
Proof.
  intros E. unfold DataBase.set_value, DataBase.contains. by rewrite E.
Qed.

Lemma delete_present key w data :
  data !! key = Some w →
  DataBase.delete key data = (w, base.delete key data).
Proof.
  intros E. unfold DataBase.delete, DataBase.contains, DataBase.dict_pop.
  by rewrite E.
Qed.

Lemma delete_absent key data :
  data !! key = None → DataBase.delete key data = (PyNone, data).
Proof.
  intros E. unfold DataBase.delete, DataBase.contains. by rewrite E.
Qed.

(** C1. Insert-if-absent: on an absent key [set_value] inserts, returns
    [True], and [get_value] then returns the value; on a present key it
    returns [False], leaves the mapping as it is, and [get_value] still
    returns the old value.  The third part is the spec's sequence: a second
    [set_value] after a first one on an absent key returns [False] and the
    first value stays. *)
Theorem set_value_insert_if_absent k v v2 w d :
  (d !! k = None →
     DataBase.set_value k v d = (true, <[k := v]> d) ∧
     DataBase.get_value k (DataBase.set_value k v d).2 = v) ∧
  (d !! k = Some w →
     DataBase.set_value k v2 d = (false, d) ∧
     DataBase.get_value k (DataBase.set_value k v2 d).2 = w) ∧
  (d !! k = None →
     let d1 := (DataBase.set_value k v d).2 in
     DataBase.set_value k v2 d1 = (false, d1) ∧
     DataBase.get_value k (DataBase.set_value k v2 d1).2 = v).
Proof.
  split_and!.
  - intros E. rewrite (set_value_absent _ _ _ E). split; [done|].
    simpl. by rewrite get_value_lookup, lookup_insert_eq.
  - intros E. rewrite (set_value_present _ _ _ _ E). split; [done|].
    simpl. by rewrite get_value_lookup, E.
  - intros E. rewrite (set_value_absent _ _ _ E). simpl.
    assert (<[k := v]> d !! k = Some v) as E' by apply lookup_insert_eq.
    rewrite (set_value_present _ _ _ _ E'). split; [done|].
    simpl. by rewrite get_value_lookup, E'.
Qed.

(** C2. Delete: on a present key [delete] removes the binding and returns
    its value, after which [get_value] returns [None]; on an absent key it
    returns [None] and the mapping is unchanged. *)
Theorem delete_removes_and_returns k w d :
  (d !! k = Some w →
     DataBase.delete k d = (w, base.delete k d) ∧
     (DataBase.delete k d).2 !! k = None ∧
     DataBase.get_value k (DataBase.delete k d).2 = PyNone) ∧
  (d !! k = None →
     DataBase.delete k d = (PyNone, d)).
Proof.
  split.
  - intros E. rewrite (delete_present _ _ _ E). simpl.
    split_and!; [done|apply lookup_delete_eq|].
    by rewrite get_value_lookup, lookup_delete_eq.
  - apply delete_absent.
Qed.

(** C9. Frame: [set_value] and [delete] on [k] leave the binding of every
    other key, and hence what [get_value] returns for it, as they were. *)
Theorem mutation_frame k k' v d :
  k ≠ k' →
  (DataBase.set_value k v d).2 !! k' = d !! k' ∧
  (DataBase.delete k d).2 !! k' = d !! k' ∧
  DataBase.get_value k' (DataBase.set_value k v d).2 = DataBase.get_value k' d ∧
  DataBase.get_value k' (DataBase.delete k d).2 = DataBase.get_value k' d.
Proof.
  intros Hne.
  assert ((DataBase.set_value k v d).2 !! k' = d !! k') as Hs.
  { unfold DataBase.set_value.
    destruct (DataBase.contains k d); simpl; [done|].
    by rewrite lookup_insert_ne. }
  assert ((DataBase.delete k d).2 !! k' = d !! k') as Hd.
  { unfold DataBase.delete, DataBase.dict_pop.
    destruct (DataBase.contains k d); simpl; [|done].
    by rewrite lookup_delete_ne. }
  split_and!; [done|done| |]; rewrite !get_value_lookup; congruence.
Qed.

End DataBase_facts.

(** The spec's concrete scenario on the in-memory mapping, with string keys:
    start empty; [set("a", 1)] is [True]; [get("a")] is [1]; [set("a", 2)] is
    [False]; [get("a")] is [1]; [delete("a")] is [1]; [get("a")] is absent;
    [delete("a")] is absent. *)
Example scenario_in_memory :
  let d0 : gmap string value := DataBase.init in
  let '(r1, d1) := DataBase.set_value "a" (PyInt 1) d0 in
  let g1 := DataBase.get_value "a" d1 in
  let '(r2, d2) := DataBase.set_value "a" (PyInt 2) d1 in
  let g2 := DataBase.get_value "a" d2 in
  let '(r3, d3) := DataBase.delete "a" d2 in
  let g3 := DataBase.get_value "a" d3 in
  let '(r4, d4) := DataBase.delete "a" d3 in
  (r1, g1, r2, g2, r3, g3, r4)
  = (true, PyInt 1, false, PyInt 1, PyInt 1, PyNone, PyNone).
Proof. vm_compute. reflexivity. Qed.

Lemma set_value_insert_if_absent_witness :
  ((∅ : gmap Z value) !! 0%Z = None ∧
   DataBase.set_value 0%Z (PyInt 1) (∅ : gmap Z value)
     = (true, <[0%Z := PyInt 1]> ∅) ∧
   DataBase.get_value 0%Z (DataBase.set_value 0%Z (PyInt 1) ∅).2 = PyInt 1) ∧
  (({[0%Z := PyInt 1]} : gmap Z value) !! 0%Z = Some (PyInt 1) ∧
   DataBase.set_value 0%Z (PyInt 2) ({[0%Z := PyInt 1]} : gmap Z value)
     = (false, {[0%Z := PyInt 1]}) ∧
   DataBase.get_value 0%Z
     (DataBase.set_value 0%Z (PyInt 2) ({[0%Z := PyInt 1]} : gmap Z value)).2
     = PyInt 1).
Proof.
  split.
  - split; [reflexivity|].
    apply (set_value_insert_if_absent 0%Z (PyInt 1) (PyInt 2) PyNone ∅).
    reflexivity.
  - split; [reflexivity|].
    apply (set_value_insert_if_absent 0%Z (PyInt 1) (PyInt 2) (PyInt 1)
             {[0%Z := PyInt 1]}).
    reflexivity.
Defined.

Lemma delete_removes_and_returns_witness :
  (({[0%Z := PyInt 1]} : gmap Z value) !! 0%Z = Some (PyInt 1) ∧
   DataBase.get_value 0%Z
     (DataBase.delete 0%Z ({[0%Z := PyInt 1]} : gmap Z value)).2 = PyNone) ∧
  ((∅ : gmap Z value) !! 0%Z = None ∧
   DataBase.delete 0%Z (∅ : gmap Z value) = (PyNone, ∅)).
Proof.
  split.
  - split; [reflexivity|].
    apply (delete_removes_and_returns 0%Z (PyInt 1) {[0%Z := PyInt 1]}).
    reflexivity.
  - split; [reflexivity|].
    apply (delete_removes_and_returns 0%Z PyNone ∅).
    reflexivity.
Defined.

Lemma mutation_frame_witness :
  (0%Z ≠ 1%Z) ∧
  DataBase.get_value 1%Z
    (DataBase.delete 0%Z
       ({[0%Z := PyInt 1; 1%Z := PyStr "b"]} : gmap Z value)).2
  = DataBase.get_value 1%Z
      ({[0%Z := PyInt 1; 1%Z := PyStr "b"]} : gmap Z value).
Proof.
  split; [discriminate|].
  apply (mutation_frame 0%Z 1%Z PyNone {[0%Z := PyInt 1; 1%Z := PyStr "b"]}).
  discriminate.
Defined.

(** * Properties of persistence (class [SerializedDataBase]) *)

Section SerializedDataBase_facts.
Context {K : Type} `{Pickle K}.
Implicit Types (s : State K) (d : gmap K value) (b : blob) (e : exn).

Lemma load_handler_caught e :
  SerializedDataBase.load_handler (K := K) e
  = if caught e then Some (modify (set_data ∅)) else None.
Proof. by destruct e. Qed.

(** [load], case by case. *)
Lemma load_eq s :
  SerializedDataBase.load s =
  match fs s !! filename s with
  | None => Returns tt (set_data ∅ s)
  | Some b =>
      let s1 := emit (EvRead (filename s)) s in
      match pickle_load b with
      | inr d => Returns tt (set_data d s1)
      | inl e => if caught e then Returns tt (set_data ∅ s1) else Raises e s1
      end
  end.
Proof.
  unfold SerializedDataBase.load, try_except, SerializedDataBase.open_rb,
    SerializedDataBase.load_pickle.
  unfold_monad.
  destruct (fs s !! filename s) as [b|]; [|done].
  destruct (pickle_load b) as [e|d]; simpl; [|done].
  rewrite load_handler_caught. by destruct (caught e).
Qed.

Lemma save_eq s :
  SerializedDataBase.save s =
  Returns tt (emit (EvWrite (filename s) (pickle_dump (data s)))
                (set_fs (<[filename s := pickle_dump (data s)]> (fs s)) s)).
Proof. reflexivity. Qed.

(** C3, as the code has it.  [load] masks exactly two failures: a missing
    file, and contents on which [pickle.load] raises [EOFError] (or
    [FileNotFoundError]); the snapshot is then the empty mapping.  Contents
    that unpickle become the snapshot.  Any other exception of [pickle.load]
    (corrupt contents: [UnpicklingError]) reaches the caller, and
    [self.data] is left as it was. *)
Theorem load_masks_missing_and_eof_only s :
  (fs s !! filename s = None →
     SerializedDataBase.load s = Returns tt (set_data ∅ s)) ∧
  (∀ b e, fs s !! filename s = Some b → pickle_load b = inl e →
     e = FileNotFoundError ∨ e = EOFError →
     SerializedDataBase.load s
     = Returns tt (set_data ∅ (emit (EvRead (filename s)) s))) ∧
  (∀ b d, fs s !! filename s = Some b → pickle_load b = inr d →
     SerializedDataBase.load s
     = Returns tt (set_data d (emit (EvRead (filename s)) s))) ∧
  (∀ b e, fs s !! filename s = Some b → pickle_load b = inl e →
     e ≠ FileNotFoundError → e ≠ EOFError →
     SerializedDataBase.load s = Raises e (emit (EvRead (filename s)) s) ∧
     data (emit (EvRead (filename s)) s) = data s).
Proof.
  split_and!.
  - intros E. by rewrite load_eq, E.
  - intros b e E L [->| ->]; by rewrite load_eq, E, L.
  - intros b d E L. by rewrite load_eq, E, L.
  - intros b e E L N1 N2. rewrite load_eq, E, L. simpl.
    by destruct e.
Qed.

End SerializedDataBase_facts.

Section RoundTrip.
Context {K : Type} `{PickleRoundTrip K}.
Implicit Types (s : State K) (d : gmap K value).

(** C6. Persist-then-restore is a round trip.  [save] followed by [load]
    returns, with the snapshot that was saved; and a store opened afterwards
    on the same path (a new object on the file system that [save] left) holds
    that snapshot, so that [get_value] returns every binding that was
    written. *)
Theorem save_load_round_trip s :
  (∃ s',
     (SerializedDataBase.save;; SerializedDataBase.load) s = Returns tt s' ∧
     data s' = data s ∧
     fs s' !! filename s' = Some (pickle_dump (data s))) ∧
  (∀ s1 s0,
     SerializedDataBase.save s = Returns tt s1 →
     fs s0 = fs s1 →
     ∃ s2,
       SerializedDataBase.init (filename s) s0 = Returns tt s2 ∧
       data s2 = data s ∧
       ∀ k v, data s !! k = Some v → DataBase.get_value k (data s2) = v).
Proof.
  split.
  - eexists. split_and!.
    + unfold_monad. rewrite save_eq, load_eq. simpl.
      rewrite lookup_insert_eq. simpl.
      rewrite pickle_load_dump. reflexivity.
    + done.
    + simpl. by rewrite lookup_insert_eq.
  - intros s1 s0 Hs Hfs. rewrite save_eq in Hs. injection Hs as <-.
    simpl in Hfs.
    eexists. split_and!.
    + unfold SerializedDataBase.init. unfold_monad. simpl.
      rewrite load_eq. simpl. rewrite Hfs, lookup_insert_eq. simpl.
      rewrite pickle_load_dump. reflexivity.
    + done.
    + intros k v E. simpl. by rewrite get_value_lookup, E.
Qed.

End RoundTrip.

(** * Properties of single calls (class [SynchronizedDataBase]) *)

Section SynchronizedDataBase_facts.
Context {K : Type} `{Pickle K}.
Implicit Types (s : State K) (d : gmap K value) (l : lock_attr).

(** ** Inversion of the monad's combinators *)

Lemma bind_returns {A B} (m : M K A) (k : A → M K B) s b s2 :
  bind m k s = Returns b s2 →
  ∃ a s1, m s = Returns a s1 ∧ k a s1 = Returns b s2.
Proof.
  unfold bind. destruct (m s) as [a s1|e s1|s1]; [eauto|done|done].
Qed.

Lemma finally_returns {A} (body : M K A) (cleanup : M K unit) s a s2 :
  finally body cleanup s = Returns a s2 →
  ∃ s1, body s = Returns a s1 ∧ cleanup s1 = Returns tt s2.
Proof.
  unfold finally, bind, ret, raise.
  destruct (body s) as [a' s1|e s1|s1]; [|by destruct (cleanup s1)|done].
  destruct (cleanup s1) as [[] s3|e s3|s3] eqn:E; [|done|done].
  intros [= -> ->]. eauto.
Qed.

(** ** The primitives leave the store alone *)

Lemma same_store_refl s : same_store s s.
Proof. done. Qed.

Lemma same_store_trans s1 s2 s3 :
  same_store s1 s2 → same_store s2 s3 → same_store s1 s3.
Proof. unfold same_store. intros (?&?&?) (?&?&?). split_and!; congruence. Qed.

Lemma keeps_store_bind {A B} (m : M K A) (k : A → M K B) :
  keeps_store m → (∀ a, keeps_store (k a)) → keeps_store (bind m k).
Proof.
  intros Hm Hk s b s2 E. apply bind_returns in E as (a & s1 & E1 & E2).
  eapply same_store_trans; [by eapply Hm|by eapply Hk].
Qed.

Lemma keeps_store_ret {A} (a : A) : keeps_store (ret a : M K A).
Proof. intros s a' s' [= _ <-]. apply same_store_refl. Qed.

Lemma keeps_store_acquire l : keeps_store (SynchronizedDataBase.acquire l).
Proof.
  intros s a s'. unfold SynchronizedDataBase.acquire. unfold_monad.
  destruct (get_lock l s) as [[]|]; [done| |done].
  intros [= _ <-]. by destruct l.
Qed.

Lemma keeps_store_release l : keeps_store (SynchronizedDataBase.release l).
Proof.
  intros s a s'. unfold SynchronizedDataBase.release. unfold_monad.
  destruct (get_lock l s) as [[]|]; [|done|done].
  intros [= _ <-]. by destruct l.
Qed.

Lemma keeps_store_sem_acquire : keeps_store SynchronizedDataBase.sem_acquire.
Proof.
  intros s a s'. unfold SynchronizedDataBase.sem_acquire. unfold_monad.
  destruct (read_semaphore s) as [[|n]|]; [done| |done].
  by intros [= _ <-].
Qed.

Lemma keeps_store_sem_release : keeps_store SynchronizedDataBase.sem_release.
Proof.
  intros s a s'. unfold SynchronizedDataBase.sem_release. unfold_monad.
  destruct (read_semaphore s) as [n|]; [|done].
  by intros [= _ <-].
Qed.

Lemma keeps_store_for_range n (body : M K unit) :
  keeps_store body → keeps_store (for_range n body).
Proof.
  intros Hb. induction n as [|n IH]; simpl.
  - apply keeps_store_ret.
  - apply keeps_store_bind; [done|]. by intros _.
Qed.

Lemma keeps_store_drain : keeps_store SynchronizedDataBase.drain.
Proof.
  intros s a s'. unfold SynchronizedDataBase.drain.
  unfold mbind at 1, M_bind at 1, bind at 1, getattr.
  destruct (read_limit s) as [n|]; [|done].
  apply keeps_store_for_range.
  apply keeps_store_bind; [apply keeps_store_sem_acquire|].
  intros _. apply keeps_store_ret.
Qed.

Lemma keeps_store_refill : keeps_store SynchronizedDataBase.refill.
Proof.
  intros s a s'. unfold SynchronizedDataBase.refill.
  unfold mbind at 1, M_bind at 1, bind at 1, getattr.
  destruct (read_limit s) as [n|]; [|done].
  apply keeps_store_for_range, keeps_store_sem_release.
Qed.

(** ** The write path, for either mutation *)

Lemma value_set_write_call key v :
  SynchronizedDataBase.value_set key v = write_call (DataBase.set_value key v).
Proof. reflexivity. Qed.

Lemma value_delete_write_call key :
  SynchronizedDataBase.value_delete key = write_call (DataBase.delete key).
Proof. reflexivity. Qed.

Lemma persisted_same_store s s' :
  same_store s s' → persisted s → persisted s'.
Proof. unfold persisted. intros (-> & -> & ->). done. Qed.

Lemma with_lock_returns {A} l (body : M K A) s a s2 :
  SynchronizedDataBase.with_lock l body s = Returns a s2 →
  ∃ s0 s1, same_store s s0 ∧ body s0 = Returns a s1 ∧ same_store s1 s2.
Proof.
  unfold SynchronizedDataBase.with_lock. intros E.
  apply bind_returns in E as ([] & s0 & E0 & E).
  apply finally_returns in E as (s1 & E1 & E2).
  exists s0, s1. split_and!; [|done|].
  - by eapply keeps_store_acquire.
  - by eapply keeps_store_release.
Qed.

(** Whenever a write call returns, it has persisted the snapshot, and the
    result and the snapshot are those of the mutation. *)
Lemma write_call_returns {A} (mutate : gmap K value → A * gmap K value)
    s r s' :
  write_call mutate s = Returns r s' →
  persisted s' ∧ (r, data s') = mutate (data s) ∧
  filename s' = filename s ∧
  fs s' = <[filename s := pickle_dump (data s')]> (fs s).
Proof.
  unfold write_call. intros E.
  apply with_lock_returns in E as (s1 & s1' & F1 & E & F1').
  apply with_lock_returns in E as (s2 & s2' & F2 & E & F2').
  apply bind_returns in E as ([] & s3 & E3 & E).
  apply keeps_store_drain in E3 as F3.
  apply bind_returns in E as (r' & s4 & E4 & E).
  apply bind_returns in E as ([] & s5 & E5 & E).
  apply keeps_store_refill in E5 as F5.
  injection E as -> <-.
  apply with_lock_returns in E4 as (s6 & s6' & F6 & E & F6').
  apply bind_returns in E as (r'' & s7 & E7 & E).
  apply bind_returns in E as ([] & s8 & E8 & E).
  injection E as -> <-.
  unfold on_data in E7. destruct (mutate (data s6)) as [r0 d0] eqn:Em.
  injection E7 as -> <-.
  rewrite save_eq in E8. injection E8 as <-.
  assert (same_store s s6) as F.
  { repeat (eapply same_store_trans; [eassumption|]). apply same_store_refl. }
  assert (same_store
            (emit (EvWrite (filename (set_data d0 s6))
                     (pickle_dump (data (set_data d0 s6))))
               (set_fs (<[filename (set_data d0 s6)
                          := pickle_dump (data (set_data d0 s6))]>
                          (fs (set_data d0 s6))) (set_data d0 s6))) s') as F'.
  { repeat (eapply same_store_trans; [eassumption|]). apply same_store_refl. }
  destruct F as (Fd & Ff & Ffs). destruct F' as (Fd' & Ff' & Ffs').
  simpl in *. unfold persisted.
  rewrite Fd', Ff', Ffs', <- Fd, <- Ff, <- Ffs, Em.
  split_and!; try done. by rewrite lookup_insert_eq.
Qed.

End SynchronizedDataBase_facts.

Section Idle.
Context {K : Type} `{Pickle K}.
Implicit Types (s : State K) (d : gmap K value) (l : lock_attr).

(** ** Calls on an idle store *)

Lemma for_range_sem_acquire n : ∀ s m,
  read_semaphore s = Some (n + m) →
  for_range n (SynchronizedDataBase.sem_acquire;; mret ()) s
  = Returns () (add_log (replicate n EvSemAcquire)
                  (set_read_semaphore (Some m) s)).
Proof.
  induction n as [|n IH]; intros s m E; simpl.
  - destruct s; simpl in *. subst. unfold ret, add_log, set_read_semaphore.
    simpl. by rewrite app_nil_r.
  - unfold SynchronizedDataBase.sem_acquire at 1. unfold_monad.
    rewrite E. simpl.
    rewrite (IH _ m); [|done].
    f_equal. destruct s; unfold add_log, set_read_semaphore, emit; simpl.
    by rewrite <- app_assoc.
Qed.

Lemma for_range_sem_release n : ∀ s m,
  read_semaphore s = Some m →
  for_range n SynchronizedDataBase.sem_release s
  = Returns () (add_log (replicate n EvSemRelease)
                  (set_read_semaphore (Some (n + m)) s)).
Proof.
  induction n as [|n IH]; intros s m E; simpl.
  - destruct s; simpl in *. subst. unfold ret, add_log, set_read_semaphore.
    simpl. by rewrite app_nil_r.
  - unfold SynchronizedDataBase.sem_release at 1. unfold_monad.
    rewrite E. simpl.
    rewrite (IH _ (S m)); [|done].
    f_equal. destruct s; unfold add_log, set_read_semaphore, emit; simpl.
    rewrite <- app_assoc. simpl. do 3 f_equal. lia.
Qed.

(** On an idle store a write call returns; it leaves the mutation's result
    and snapshot, the dump of that snapshot on disk, the whole protocol in
    the log, and the store idle again. *)
Lemma write_call_idle {A} (mutate : gmap K value → A * gmap K value)
    limit spare s :
  idle limit spare s →
  write_call mutate s
  = Returns (mutate (data s)).1 (written limit (mutate (data s)).2 s).
Proof.
  intros (Ed & Er & Ew & El & Es).
  destruct s as [d f dl rl rdl wl sem fsys lg]. simpl in *. subst.
  destruct (mutate d) as [r d'] eqn:Em.
  unfold write_call, SynchronizedDataBase.with_lock, finally,
    SynchronizedDataBase.acquire, SynchronizedDataBase.release,
    SynchronizedDataBase.drain, SynchronizedDataBase.refill.
  unfold_monad. simpl.
  rewrite (for_range_sem_acquire limit _ spare) by done. simpl.
  unfold on_data. simpl. rewrite Em. simpl.
  rewrite (for_range_sem_release limit _ spare) by done. simpl.
  unfold written, add_log, protocol_trace, set_fs, set_data. simpl.
  unfold emit. simpl. do 2 f_equal.
  repeat (rewrite <- app_assoc; simpl). reflexivity.
Qed.

Lemma written_idle limit spare d s :
  idle limit spare s → idle limit spare (written limit d s).
Proof. done. Qed.

End Idle.

Section Calls.
Context {K : Type} `{Pickle K}.
Implicit Types (s : State K) (d : gmap K value) (k : K) (v w : value).

Lemma serialized_init_eq file s :
  SerializedDataBase.init file s
  = SerializedDataBase.load (set_filename file (set_data ∅ s)).
Proof. reflexivity. Qed.

Lemma sem_acquire_eq s n :
  read_semaphore s = Some (S n) →
  SynchronizedDataBase.sem_acquire s
  = Returns true (emit EvSemAcquire (set_read_semaphore (Some n) s)).
Proof.
  intros E. unfold SynchronizedDataBase.sem_acquire. unfold_monad.
  by rewrite E.
Qed.

(** [value_get] on a store whose semaphore has a permit: the permit is
    taken, the file is read anew, and the outcome is that of [load]. *)
Lemma value_get_eq k s n :
  read_semaphore s = Some (S n) →
  SynchronizedDataBase.value_get k s =
  match SerializedDataBase.load
          (emit EvSemAcquire (set_read_semaphore (Some n) s)) with
  | Returns _ s1 =>
      Returns (DataBase.get_value k (data s1))
        (emit EvSemRelease (set_read_semaphore (Some (S n)) s1))
  | Raises e s1 => Raises e s1
  | Blocks s1 => Blocks s1
  end.
Proof.
  intros E. unfold SynchronizedDataBase.value_get.
  unfold mbind at 1, M_bind at 1, bind at 1.
  rewrite (sem_acquire_eq _ _ E).
  unfold mbind at 1, M_bind at 1, bind at 1.
  rewrite load_eq. simpl.
  destruct (fs s !! filename s) as [b|]; simpl.
  - destruct (pickle_load b) as [e|d]; simpl.
    + destruct (caught e); [|done].
      unfold SynchronizedDataBase.sem_release. by unfold_monad.
    + unfold SynchronizedDataBase.sem_release. by unfold_monad.
  - unfold SynchronizedDataBase.sem_release. by unfold_monad.
Qed.

(** C5. [value_get] reloads, then looks up.  It is the sequence: take a
    permit, [load], [get_value], give the permit back.  With a permit
    available and a file that unpickles to [d], it returns the binding of
    [k] in [d] ([None] if there is none) and leaves [d] as the snapshot;
    with no file it returns [None] and leaves the empty snapshot.  The
    snapshot held in memory before the call has no part in the result. *)
Theorem value_get_reads_disk k s n :
  read_semaphore s = Some (S n) →
  SynchronizedDataBase.value_get k s
  = (SynchronizedDataBase.sem_acquire;;
     SerializedDataBase.load;;
     x ← gets (λ s, DataBase.get_value k (data s));
     SynchronizedDataBase.sem_release;;
     mret x) s ∧
  (∀ b d, fs s !! filename s = Some b → pickle_load b = inr d →
     ∀ d0, ∃ s',
       SynchronizedDataBase.value_get k (set_data d0 s)
       = Returns (default PyNone (d !! k)) s' ∧
       data s' = d ∧ read_semaphore s' = Some (S n)) ∧
  (fs s !! filename s = None →
     ∀ d0, ∃ s',
       SynchronizedDataBase.value_get k (set_data d0 s) = Returns PyNone s' ∧
       data s' = ∅ ∧ read_semaphore s' = Some (S n)).
Proof.
  intros E. split_and!.
  - unfold SynchronizedDataBase.value_get.
    unfold mbind, M_bind, bind.
    by rewrite (sem_acquire_eq _ _ E).
  - intros b d Ef El d0. eexists.
    rewrite (value_get_eq k (set_data d0 s) n E), load_eq. simpl.
    rewrite Ef. simpl. rewrite El. simpl.
    rewrite get_value_lookup. split_and!; [reflexivity|done|done].
  - intros Ef d0. eexists.
    rewrite (value_get_eq k (set_data d0 s) n E), load_eq. simpl.
    rewrite Ef. simpl. rewrite get_value_lookup, lookup_empty.
    split_and!; [reflexivity|done|done].
Qed.

(** C7. A write that changes nothing pays the full cost.  On an idle store,
    [value_set] on a present key returns [False], and [value_delete] on an
    absent key returns [None]; either leaves the snapshot as it was, and yet
    has run the whole protocol (both locks, all [limit] permits drained, the
    data lock, all permits given back) and has written the dump of the
    unchanged snapshot to the file. *)
Theorem no_op_write_still_persists k v w limit spare s :
  idle limit spare s →
  (data s !! k = Some w →
     SynchronizedDataBase.value_set k v s
     = Returns false (written limit (data s) s)) ∧
  (data s !! k = None →
     SynchronizedDataBase.value_delete k s
     = Returns PyNone (written limit (data s) s)) ∧
  data (written limit (data s) s) = data s ∧
  fs (written limit (data s) s)
  = <[filename s := pickle_dump (data s)]> (fs s) ∧
  log (written limit (data s) s)
  = log s
    ++ [EvAcquire WriteLock; EvAcquire ReadLock]
    ++ replicate limit EvSemAcquire
    ++ [EvAcquire DataLock;
        EvWrite (filename s) (pickle_dump (data s));
        EvRelease DataLock]
    ++ replicate limit EvSemRelease
    ++ [EvRelease ReadLock; EvRelease WriteLock].
Proof.
  intros Hidle. split_and!; try done.
  - intros E. rewrite value_set_write_call.
    rewrite (write_call_idle _ limit spare s Hidle).
    by rewrite (set_value_present _ _ _ _ E).
  - intros E. rewrite value_delete_write_call.
    rewrite (write_call_idle _ limit spare s Hidle).
    by rewrite (delete_absent _ _ E).
Qed.

(** C10. A mode that is neither ['threads'] nor ['processes'] is not
    rejected: [__init__] does what [SerializedDataBase.__init__] does (so it
    returns whenever that returns, as it does when there is no file yet, and
    raises only what that raises), then sets [data_lock] and [read_limit] and
    nothing more.  On the object so
    built [read_lock], [write_lock] and [read_semaphore] are unassigned, and
    every [value_set], [value_get] and [value_delete] raises
    [AttributeError] on its first line, leaving the whole state untouched. *)
Theorem invalid_mode_leaves_no_locks file mode files :
  mode ≠ "threads" → mode ≠ "processes" →
  (∀ s1, SerializedDataBase.init file (fresh files) = Returns () s1 →
     SynchronizedDataBase.init file mode (fresh files)
     = Returns () (set_read_limit (Some 10)
                     (set_lock DataLock (Some false) s1))) ∧
  (∀ e s1, SerializedDataBase.init file (fresh files) = Raises e s1 →
     SynchronizedDataBase.init file mode (fresh files) = Raises e s1) ∧
  (files !! file = None →
     ∃ s', SynchronizedDataBase.init file mode (fresh files) = Returns () s') ∧
  (∀ s', SynchronizedDataBase.init file mode (fresh files) = Returns () s' →
     read_lock s' = None ∧ write_lock s' = None ∧ read_semaphore s' = None ∧
     ∀ k v,
       SynchronizedDataBase.value_set k v s'
       = Raises (AttributeError "write_lock") s' ∧
       SynchronizedDataBase.value_get k s'
       = Raises (AttributeError "read_semaphore") s' ∧
       SynchronizedDataBase.value_delete k s'
       = Raises (AttributeError "write_lock") s').
Proof.
  intros N1 N2.
  apply String.eqb_neq in N1, N2.
  assert (∀ s1, SerializedDataBase.init file (fresh files) = Returns () s1 →
            SynchronizedDataBase.init file mode (fresh files)
            = Returns () (set_read_limit (Some 10)
                            (set_lock DataLock (Some false) s1))) as Hinit.
  { intros s1 E. unfold SynchronizedDataBase.init.
    unfold mbind at 1, M_bind at 1, bind at 1. rewrite E.
    rewrite N1, N2. reflexivity. }
  split_and!; [done| | |].
  - intros e s1 E. unfold SynchronizedDataBase.init.
    unfold mbind at 1, M_bind at 1, bind at 1. by rewrite E.
  - intros Ef. eexists. apply Hinit.
    rewrite serialized_init_eq, load_eq. simpl. by rewrite Ef.
  - intros s' E.
    assert (read_lock s' = None ∧ write_lock s' = None ∧
            read_semaphore s' = None) as (Er & Ew & Es).
    { revert E. unfold SynchronizedDataBase.init.
      unfold mbind at 1, M_bind at 1, bind at 1.
      rewrite serialized_init_eq, load_eq, N1, N2. simpl.
      destruct (files !! file) as [b|]; simpl.
      - destruct (pickle_load b) as [e|d]; simpl.
        + destruct (caught e); [|done]. by intros [= <-].
        + by intros [= <-].
      - by intros [= <-]. }
    split_and!; try done. intros k v.
    unfold SynchronizedDataBase.value_set, SynchronizedDataBase.value_get,
      SynchronizedDataBase.value_delete, SynchronizedDataBase.with_lock,
      SynchronizedDataBase.acquire, SynchronizedDataBase.sem_acquire.
    unfold_monad. simpl. by rewrite Ew, Es.
Qed.

End Calls.

Section Consistency.
Context {K : Type} `{PickleRoundTrip K}.
Implicit Types (s : State K) (k : K) (v : value).

(** C4. After a write call has returned, what is on disk is what is in
    memory: the backing file holds the dump of the snapshot, and it unpickles
    to the snapshot.  This holds for every call that returns; and on an idle
    store the calls do return, with the write to the file logged before the
    permits and the two outer locks are given back. *)
Theorem write_then_persisted k v :
  (∀ s r s', SynchronizedDataBase.value_set k v s = Returns r s' →
     persisted s' ∧ disk_snapshot s' = Some (inr (data s'))) ∧
  (∀ s r s', SynchronizedDataBase.value_delete k s = Returns r s' →
     persisted s' ∧ disk_snapshot s' = Some (inr (data s'))) ∧
  (∀ limit spare s, idle limit spare s →
     (∃ r s', SynchronizedDataBase.value_set k v s = Returns r s' ∧
        log s' = log s ++ protocol_trace limit (filename s')
                            (pickle_dump (data s'))) ∧
     (∃ r s', SynchronizedDataBase.value_delete k s = Returns r s' ∧
        log s' = log s ++ protocol_trace limit (filename s')
                            (pickle_dump (data s')))).
Proof.
  assert (∀ s, persisted s → disk_snapshot s = Some (inr (data s))) as Hp.
  { intros s E. unfold disk_snapshot. rewrite E. simpl.
    by rewrite pickle_load_dump. }
  split_and!.
  - intros s r s' E. rewrite value_set_write_call in E.
    apply write_call_returns in E as (E & _). eauto.
  - intros s r s' E. rewrite value_delete_write_call in E.
    apply write_call_returns in E as (E & _). eauto.
  - intros limit spare s Hidle. split.
    + do 2 eexists. rewrite value_set_write_call.
      rewrite (write_call_idle _ limit spare s Hidle). done.
    + do 2 eexists. rewrite value_delete_write_call.
      rewrite (write_call_idle _ limit spare s Hidle). done.
Qed.

End Consistency.

(** * The model at work: integer and string keys, the reference [pickle] *)

Section Examples.
Import Reference Demo.

Example store_is_idle : idle 10 0 store.
Proof. by vm_compute. Qed.

(** The spec's concrete scenario through the synchronised calls, with string
    keys, starting where there is no file. *)
Example scenario_synchronised :
  let s0 : State string :=
    state_of (SynchronizedDataBase.init "test.pkl" "processes" (fresh ∅)) in
  let o1 := SynchronizedDataBase.value_set "a" (PyInt 1) s0 in
  let o2 := SynchronizedDataBase.value_get "a" (state_of o1) in
  let o3 := SynchronizedDataBase.value_set "a" (PyInt 2) (state_of o2) in
  let o4 := SynchronizedDataBase.value_get "a" (state_of o3) in
  let o5 := SynchronizedDataBase.value_delete "a" (state_of o4) in
  let o6 := SynchronizedDataBase.value_get "a" (state_of o5) in
  let o7 := SynchronizedDataBase.value_delete "a" (state_of o6) in
  (result_of o1, result_of o2, result_of o3, result_of o4, result_of o5,
   result_of o6, result_of o7, fs (state_of o7) !! "test.pkl")
  = (Some true, Some (PyInt 1), Some false, Some (PyInt 1), Some (PyInt 1),
     Some PyNone, Some PyNone, Some (Pickled ∅)).
Proof. vm_compute. reflexivity. Qed.

End Examples.

Import Reference.

(** C3 fails as stated: where the file holds bytes that are no pickle,
    [load] raises [UnpicklingError] to its caller instead of installing an
    empty snapshot. *)
Lemma load_corrupt_raises :
  fs Demo.corrupt !! filename Demo.corrupt = Some Reference.Garbage ∧
  SerializedDataBase.load Demo.corrupt
  = Raises UnpicklingError (emit (EvRead "test.pkl") Demo.corrupt) ∧
  ¬ ∃ s', SerializedDataBase.load Demo.corrupt = Returns () s'.
Proof.
  assert (SerializedDataBase.load Demo.corrupt
          = Raises UnpicklingError (emit (EvRead "test.pkl") Demo.corrupt))
    as E by reflexivity.
  split_and!; [reflexivity|exact E|].
  intros [s' E']. rewrite E in E'. discriminate.
Qed.

Lemma load_masks_missing_and_eof_only_witness :
  SerializedDataBase.load Demo.corrupt
  = Raises UnpicklingError (emit (EvRead "test.pkl") Demo.corrupt) ∧
  SerializedDataBase.load
    (set_fs {["test.pkl" := Reference.Empty]} Demo.corrupt)
  = Returns () (set_data ∅ (emit (EvRead "test.pkl")
                               (set_fs {["test.pkl" := Reference.Empty]}
                                  Demo.corrupt))) ∧
  SerializedDataBase.load (set_fs ∅ Demo.corrupt)
  = Returns () (set_data ∅ (set_fs ∅ Demo.corrupt)).
Proof.
  split_and!.
  - apply (load_masks_missing_and_eof_only Demo.corrupt)
      with (b := Reference.Garbage); [reflexivity|reflexivity|done|done].
  - apply (load_masks_missing_and_eof_only
             (set_fs {["test.pkl" := Reference.Empty]} Demo.corrupt))
      with (b := Reference.Empty) (e := EOFError);
      [reflexivity|reflexivity|by right].
  - apply (load_masks_missing_and_eof_only (set_fs ∅ Demo.corrupt)).
    reflexivity.
Defined.

Lemma save_load_round_trip_witness :
  ∃ s',
    (SerializedDataBase.save;; SerializedDataBase.load) Demo.store_on_pickle
    = Returns () s' ∧
    data s' = data Demo.store_on_pickle ∧
    fs s' !! filename s'
    = Some (pickle_dump (data Demo.store_on_pickle)).
Proof.
  exact (proj1 (save_load_round_trip (H1 := Reference.ref_round_trip Z)
                  Demo.store_on_pickle)).
Defined.

Lemma write_then_persisted_witness :
  idle 10 0 Demo.store ∧
  ∃ r s',
    SynchronizedDataBase.value_set 0%Z (PyInt 1) Demo.store = Returns r s' ∧
    persisted s' ∧ disk_snapshot s' = Some (inr (data s')).
Proof.
  split; [by vm_compute|].
  pose proof (write_then_persisted (H1 := Reference.ref_round_trip Z)
                0%Z (PyInt 1)) as (Hset & _ & Hidle).
  destruct (Hidle 10 0 Demo.store) as [(r & s' & E & _) _]; [by vm_compute|].
  exists r, s'. split; [exact E|]. exact (Hset _ _ _ E).
Defined.

Lemma value_get_reads_disk_witness :
  read_semaphore Demo.store_on_pickle = Some 10 ∧
  ∃ s',
    SynchronizedDataBase.value_get 0%Z (set_data ∅ Demo.store_on_pickle)
    = Returns (default PyNone (({[0%Z := PyInt 1]} : gmap Z value) !! 0%Z)) s'
    ∧ data s' = {[0%Z := PyInt 1]}
    ∧ read_semaphore s' = Some 10.
Proof.
  split; [reflexivity|].
  destruct (value_get_reads_disk 0%Z Demo.store_on_pickle 9 eq_refl)
    as (_ & Hfile & _).
  apply (Hfile (Reference.Pickled {[0%Z := PyInt 1]}));
    reflexivity.
Defined.

Lemma no_op_write_still_persists_witness :
  idle 10 0 Demo.store_on_pickle ∧
  data Demo.store_on_pickle !! 0%Z = Some (PyInt 1) ∧
  SynchronizedDataBase.value_set 0%Z (PyInt 2) Demo.store_on_pickle
  = Returns false
      (written 10 (data Demo.store_on_pickle) Demo.store_on_pickle).
Proof.
  assert (idle 10 0 Demo.store_on_pickle) as Hidle by (by vm_compute).
  split_and!; [exact Hidle|reflexivity|].
  apply (no_op_write_still_persists 0%Z (PyInt 2) (PyInt 1) 10 0
           Demo.store_on_pickle Hidle).
  reflexivity.
Defined.

Lemma invalid_mode_leaves_no_locks_witness :
  "files" ≠ "threads" ∧ "files" ≠ "processes" ∧
  ∃ s' : State Z,
    SynchronizedDataBase.init "test.pkl" "files" (fresh ∅) = Returns () s' ∧
    SynchronizedDataBase.value_get 0%Z s'
    = Raises (AttributeError "read_semaphore") s'.
Proof.
  split_and!; [discriminate|discriminate|].
  destruct (invalid_mode_leaves_no_locks (K := Z) "test.pkl" "files" ∅)
    as (_ & _ & Hnone & Hraise); [discriminate|discriminate|].
  destruct (Hnone eq_refl) as [s' E].
  exists s'. split; [exact E|].
  destruct (Hraise s' E) as (_ & _ & _ & Hcalls).
  destruct (Hcalls 0%Z PyNone) as (_ & Hget & _).
  exact Hget.
Defined.

(** * Concurrent calls: readers and writers exclude each other *)

Section Concurrent_facts.
Context {K : Type} `{Pickle K}.
Import Concurrent.
Implicit Types (s : State K) (c : config K) (p : pc K).
Implicit Types (t ti tj : thread K) (ts : list (thread K)).

Lemma permits_unwind limit e locks :
  permits limit (unwind e locks : pc K) = 0.
Proof. by destruct locks. Qed.

(** The two steps of a reader's [load] make up the [load] of the class. *)
Lemma load_fetch s :
  SerializedDataBase.load s = (d ← fetch; modify (set_data d)) s.
Proof.
  rewrite load_eq. unfold_stmt.
  destruct (fs s !! filename s) as [b|]; [|done].
  destruct (pickle_load b) as [e|d]; [|done].
  by destruct e.
Qed.

(** The two steps of a writer's [save] make up the [save] of the class. *)
Lemma save_truncate s :
  SerializedDataBase.save (truncate s) = SerializedDataBase.save s.
Proof.
  rewrite !save_eq. unfold truncate. destruct s; simpl.
  by rewrite insert_insert_eq.
Qed.

(** A step moves permits between the semaphore and the call, or loses
    them; it never makes any. *)
Lemma next_permits (job : call K) p s p' s' limit n :
  read_limit s = Some limit → read_semaphore s = Some n →
  next job p s = Some (p', s') →
  read_limit s' = Some limit ∧
  ∃ n', read_semaphore s' = Some n' ∧
        n' + permits limit p' ≤ n + permits limit p.
Proof.
  intros El En Hn.
  destruct p; unfold_stmt; simpl in *;
    repeat (case_match; simplify_eq/=); simplify_eq/=;
    rewrite ?permits_unwind;
    try match goal with l : lock_attr |- _ => destruct l end;
    (split; [done|]); eexists; (split; [done|]); simpl; lia.
Qed.

(** Outside the mutate-and-persist part a step leaves the file alone, and
    it leaves [self.data] alone unless it is the assignment in [load]. *)
Lemma next_store (job : call K) p s p' s' :
  next job p s = Some (p', s') → writing p = false →
  fs s' = fs s ∧ filename s' = filename s ∧
  data s' = match p with Assigning d => d | _ => data s end.
Proof.
  intros Hn Hw.
  destruct p; try discriminate Hw; unfold_stmt; simpl in *;
    repeat (case_match; simplify_eq/=); simplify_eq/=;
    try match goal with l : lock_attr |- _ => destruct l end;
    done.
Qed.

(** ** The permits held by a pool of calls *)

Lemma pool_permits_insert limit ts i t t' :
  ts !! i = Some t →
  pool_permits limit (<[i := t']> ts) + permits limit (at_pc t)
  = pool_permits limit ts + permits limit (at_pc t').
Proof.
  unfold pool_permits. revert i. induction ts as [|a ts IH]; intros i E.
  - done.
  - destruct i as [|i]; csimpl in *.
    + simplify_eq. lia.
    + specialize (IH i E). lia.
Qed.

Lemma pool_permits_two limit ts i j ti tj :
  i ≠ j → ts !! i = Some ti → ts !! j = Some tj →
  permits limit (at_pc ti) + permits limit (at_pc tj)
  ≤ pool_permits limit ts.
Proof.
  assert (∀ (l : list (thread K)) k t, l !! k = Some t →
            permits limit (at_pc t) ≤ pool_permits limit l) as Hone.
  { unfold pool_permits. induction l as [|a l IH]; intros k t E; [done|].
    destruct k as [|k]; csimpl in *.
    - simplify_eq. lia.
    - specialize (IH k t E). lia. }
  unfold pool_permits in *.
  revert i j. induction ts as [|a ts IH]; intros i j Hne Ei Ej; [done|].
  destruct i as [|i], j as [|j]; csimpl in *; simplify_eq.
  - specialize (Hone ts j tj Ej). lia.
  - specialize (Hone ts i ti Ei). lia.
  - assert (i ≠ j) as Hne' by congruence.
    specialize (IH i j Hne' Ei Ej). lia.
Qed.

Lemma pool_permits_launch limit (jobs : list (nat * call K)) :
  pool_permits limit ((λ pj, mkThread pj.1 pj.2 Start) <$> jobs) = 0.
Proof.
  unfold pool_permits. induction jobs as [|a jobs IH]; [done|].
  csimpl. by rewrite IH.
Qed.

(** ** The invariant of the semaphore *)

Lemma step_inv i c c' :
  step i c = Some c' →
  ∃ t p' s',
    pool c !! i = Some t ∧
    next (job t) (at_pc t) (set_data (heaps c (proc t)) (shared c))
    = Some (p', s') ∧
    c' = mkConfig s' (<[proc t := data s']> (heaps c))
           (<[i := mkThread (proc t) (job t) p']> (pool c)).
Proof.
  unfold step. intros E.
  destruct (pool c !! i) as [t|]; [|done]. simpl in E.
  destruct (next _ _ _) as [[p' s']|] eqn:En; [|done]. simpl in E.
  injection E as <-. by exists t, p', s'.
Qed.

Lemma step_balanced limit i c c' :
  balanced limit c → step i c = Some c' → balanced limit c'.
Proof.
  intros (El & n & En & Hsum) Hstep.
  apply step_inv in Hstep as (t & p' & s' & Et & Hn & ->).
  eapply (next_permits _ _ _ _ _ limit n) in Hn as (El' & n' & En' & Hle);
    [|done|done].
  split; [done|]. exists n'. split; [done|]. simpl.
  pose proof (pool_permits_insert limit (pool c) i t
                (mkThread (proc t) (job t) p') Et) as Hins.
  simpl in Hins. lia.
Qed.

Lemma launch_balanced limit s hs (jobs : list (nat * call K)) :
  idle limit 0 s → balanced limit (launch s hs jobs).
Proof.
  intros (_ & _ & _ & El & Es). split; [done|].
  exists limit. simpl. split; [by rewrite Es, Nat.add_0_r|].
  rewrite pool_permits_launch. lia.
Qed.

Lemma reachable_balanced limit c0 c :
  balanced limit c0 → rtc steps c0 c → balanced limit c.
Proof.
  intros Hb Hr. induction Hr as [|c1 c2 c3 [i Hstep] _ IH]; [done|].
  apply IH. by eapply step_balanced.
Qed.

Lemma run_reachable schedule c : rtc steps c (run schedule c).
Proof.
  revert c. induction schedule as [|i rest IH]; intros c; simpl.
  - apply rtc_refl.
  - destruct (step i c) as [c'|] eqn:E; simpl; [|apply IH].
    eapply rtc_l; [by exists i|apply IH].
Qed.

Lemma permits_writing limit p : writing p = true → permits limit p = limit.
Proof. by destruct p. Qed.

Lemma permits_reading limit p : reading p = true → permits limit p = 1.
Proof. by destruct p. Qed.

Lemma balanced_exclusive limit c : balanced limit c → exclusive c.
Proof.
  intros (El & n & En & Hsum) i j ti tj Ei Ej Hw.
  destruct (reading (at_pc tj)) eqn:Hr; [exfalso|done].
  assert (i ≠ j) as Hne.
  { intros ->. rewrite Ei in Ej. injection Ej as ->.
    by destruct (at_pc tj). }
  pose proof (pool_permits_two limit _ _ _ _ _ Hne Ei Ej) as Hle.
  rewrite (permits_writing _ _ Hw), (permits_reading _ _ Hr) in Hle. lia.
Qed.

Lemma balanced_drained limit c : balanced limit c → drained c.
Proof.
  intros (El & n & En & Hsum) i ti Ei Hw. rewrite En. f_equal.
  assert (permits limit (at_pc ti) ≤ pool_permits limit (pool c)) as Hle.
  { clear -Ei. unfold pool_permits. revert i Ei.
    induction (pool c) as [|a l IH]; intros i Ei; [done|].
    destruct i as [|i]; csimpl in *.
    - simplify_eq. lia.
    - specialize (IH i Ei). lia. }
  rewrite (permits_writing _ _ Hw) in Hle. lia.
Qed.

(** ** What a read call observes *)

Lemma on_disk_set_data d s : on_disk (set_data d s) = on_disk s.
Proof. reflexivity. Qed.

Lemma obs_at_not_reading (job : call K) p disk heap :
  reading p = false → obs_at job p disk heap.
Proof. by destruct p. Qed.

Lemma next_observed (job : call K) p s p' s' :
  next job p s = Some (p', s') →
  obs_at job p (on_disk s) (data s) →
  obs_at job p' (on_disk s') (data s').
Proof.
  intros Hn Ho.
  destruct p; unfold_stmt; unfold on_disk in *; simpl in *;
    repeat (case_match; simplify_eq/=); simplify_eq/=;
    try match goal with l : list lock_attr |- _ => destruct l end;
    try done; eauto.
  all: eexists _, _; repeat split; congruence.
Qed.

Lemma step_observed limit i c c' :
  balanced limit c → observed c → step i c = Some c' → observed c'.
Proof.
  intros Hb Ho Hstep.
  apply step_inv in Hstep as (t & p' & s' & Et & Hn & ->).
  intros j tj Ej. simpl in *.
  destruct (decide (i = j)) as [<-|Hne].
  - rewrite list_lookup_insert_eq in Ej by (by eapply lookup_lt_Some).
    injection Ej as <-. simpl. rewrite fn_lookup_insert.
    eapply next_observed; [exact Hn|].
    rewrite on_disk_set_data. simpl. by apply (Ho i t Et).
  - rewrite list_lookup_insert_ne in Ej by done.
    destruct (reading (at_pc tj)) eqn:Hr; [|by apply obs_at_not_reading].
    assert (writing (at_pc t) = false) as Hw.
    { destruct (writing (at_pc t)) eqn:Hw; [|done].
      pose proof (balanced_exclusive _ _ Hb i j t tj Et Ej Hw). congruence. }
    apply (next_store _ _ _ _ _ Hn) in Hw as (Hfs & Hf & Hd). simpl in *.
    assert (on_disk s' = on_disk (shared c)) as ->.
    { unfold on_disk. by rewrite Hfs, Hf. }
    specialize (Ho j tj Ej) as Hoj.
    destruct (decide (proc t = proc tj)) as [Ep|Np];
      [|by rewrite fn_lookup_insert_ne].
    rewrite <- Ep, fn_lookup_insert, Hd. rewrite <- Ep in Hoj.
    specialize (Ho i t Et) as Hoi.
    destruct (at_pc t) eqn:Ept; try done.
    simpl in Hoi. rewrite Hoi in Hoj |- *.
    destruct (at_pc tj); simpl in *; done.
Qed.

Lemma launch_observed s hs (jobs : list (nat * call K)) :
  observed (launch s hs jobs).
Proof.
  intros j t Ej. simpl in Ej.
  apply list_lookup_fmap_Some in Ej as (pj & -> & _). done.
Qed.

Lemma reachable_observed limit c0 c :
  balanced limit c0 → observed c0 → rtc steps c0 c → observed c.
Proof.
  intros Hb Ho Hr.
  induction Hr as [|c1 c2 c3 [i Hstep] _ IH]; [done|].
  apply IH; [by eapply step_balanced|by eapply step_observed].
Qed.

(** ** The file is whole whenever it is read *)

(** Only the two statements of [save] touch the file: [open] empties it,
    [dump] fills it with the dump of [self.data]. *)
Lemma next_fs (job : call K) p s p' s' :
  next job p s = Some (p', s') →
  filename s' = filename s ∧
  match p with
  | Opening r =>
      p' = Dumping r ∧ fs s' = <[filename s := blob_empty]> (fs s)
  | Dumping _ => fs s' = <[filename s := pickle_dump (data s)]> (fs s)
  | _ => fs s' = fs s
  end.
Proof.
  intros Hn.
  destruct p; unfold_stmt; simpl in *;
    repeat (case_match; simplify_eq/=); simplify_eq/=;
    try match goal with l : lock_attr |- _ => destruct l end;
    done.
Qed.

Lemma step_settled s0 i c c' :
  settled s0 c → step i c = Some c' → settled s0 c'.
Proof.
  intros (Hf & Hfile) Hstep.
  apply step_inv in Hstep as (t & p' & s' & Et & Hn & ->).
  apply next_fs in Hn as (Hf' & Hfs). simpl in *.
  split; [simpl; by rewrite Hf'|]. simpl.
  assert (i < length (pool c)) as Hlt by (by eapply lookup_lt_Some).
  assert (fs s' = fs (shared c) →
          (∀ r, at_pc t ≠ Dumping r) →
          (∃ k tk r, <[i := mkThread (proc t) (job t) p']> (pool c) !! k
                     = Some tk ∧ at_pc tk = Dumping r) ∨
          fs s' !! filename s0 = fs s0 !! filename s0 ∨
          ∃ d, fs s' !! filename s0 = Some (pickle_dump d)) as Hsame.
  { intros -> Hnd.
    destruct Hfile as [(k & tk & r & Ek & Epk)|Hfile]; [|by right].
    left. exists k, tk, r. split; [|done].
    rewrite list_lookup_insert_ne; [done|].
    intros ->. rewrite Et in Ek. injection Ek as <-. by eapply Hnd. }
  destruct (at_pc t) eqn:Ep; try (by apply Hsame).
  - destruct Hfs as (-> & _).
    left. eexists i, _, _. by rewrite list_lookup_insert_eq.
  - right. right. rewrite Hfs, Hf. eexists. apply lookup_insert_eq.
Qed.

Lemma launch_settled s hs (jobs : list (nat * call K)) :
  settled s (launch s hs jobs).
Proof. split; [done|]. right. by left. Qed.

Lemma reachable_settled s0 c0 c :
  settled s0 c0 → rtc steps c0 c → settled s0 c.
Proof.
  intros Hs Hr. induction Hr as [|c1 c2 c3 [i Hstep] _ IH]; [done|].
  apply IH. by eapply step_settled.
Qed.

Lemma settled_whole_when_read s0 c :
  exclusive c → settled s0 c → whole_when_read s0 c.
Proof.
  intros Hex (Hf & Hfile) j t Ej Hr. rewrite Hf.
  destruct Hfile as [(k & tk & r & Ek & Epk)|Hfile]; [|done].
  assert (writing (at_pc tk) = true) as Hw by (by rewrite Epk).
  pose proof (Hex k j tk t Ek Ej Hw). congruence.
Qed.

(** C8. Readers and writers exclude each other.  Take any number of
    [value_set], [value_get] and [value_delete] calls, started on a store as
    [__init__] leaves it (locks free, [limit] permits in the semaphore), in
    threads of one process or in several processes, and interleaved
    statement by statement in any order.  In every state they can reach:
    no call is in its mutate-and-persist part (from the call of the parent's
    method to the release of the data lock, the file being empty between
    [open] and [dump]) while another is in its restore-and-lookup part (from
    taking a permit to giving it back); a call in its mutate-and-persist
    part holds every permit, the semaphore being at zero; what a reader is
    about to assign to [self.data], then [self.data] at its lookup, then its
    result, are those of the snapshot that the file holds at that moment;
    and that file is as it was at the start or holds the dump of a whole
    snapshot, never the empty file between a writer's [open] and [dump]. *)
Theorem readers_and_writers_exclude limit s hs
    (jobs : list (nat * call K)) c :
  idle limit 0 s →
  rtc steps (launch s hs jobs) c →
  exclusive c ∧ drained c ∧ observed c ∧ whole_when_read s c.
Proof.
  intros Hidle Hr.
  pose proof (launch_balanced limit s hs jobs Hidle) as Hb0.
  pose proof (reachable_balanced _ _ _ Hb0 Hr) as Hb.
  pose proof (balanced_exclusive _ _ Hb) as Hex.
  split_and!.
  - exact Hex.
  - by eapply balanced_drained.
  - eapply reachable_observed; [exact Hb0|apply launch_observed|exact Hr].
  - apply settled_whole_when_read; [exact Hex|].
    eapply reachable_settled; [apply launch_settled|exact Hr].
Qed.

End Concurrent_facts.

(** * A call that runs alone does what the method does *)

Section Alone.
Context {K : Type} `{Pickle K}.
Import Concurrent.
Implicit Types (s : State K) (c : config K) (p : pc K) (job : call K).

Lemma set_data_id s : set_data (data s) s = s.
Proof. by destruct s. Qed.

Lemma solo_stuck n job p s : next job p s = None → solo n job p s = (p, s).
Proof. intros E. destruct n; simpl; [done|]. by rewrite E. Qed.

Lemma solo_add n m job p s :
  solo (n + m) job p s = solo m job (solo n job p s).1 (solo n job p s).2.
Proof.
  revert p s. induction n as [|n IH]; intros p s; simpl; [done|].
  destruct (next job p s) as [[p' s']|] eqn:E; [apply IH|].
  simpl. by rewrite solo_stuck.
Qed.

(** The pool of one call, scheduled [n] times, is that call run alone. *)
Lemma run_solo n : ∀ c pr job p,
  pool c = [mkThread pr job p] →
  pool (run (replicate n 0) c)
  = [mkThread pr job
       (solo n job p (set_data (heaps c pr) (shared c))).1] ∧
  set_data (heaps (run (replicate n 0) c) pr) (shared (run (replicate n 0) c))
  = (solo n job p (set_data (heaps c pr) (shared c))).2.
Proof.
  induction n as [|n IH]; intros c pr job p Ep; simpl; [done|].
  unfold step. rewrite Ep. simpl.
  destruct (next job p (set_data (heaps c pr) (shared c)))
    as [[p' s']|] eqn:E; simpl.
  - specialize (IH (mkConfig s' (<[pr := data s']> (heaps c))
                      [mkThread pr job p']) pr job p' eq_refl).
    simpl in IH. by rewrite fn_lookup_insert, set_data_id in IH.
  - specialize (IH c pr job p Ep). by rewrite solo_stuck in IH.
Qed.

Lemma solo_drain job limit k : ∀ i s m,
  read_limit s = Some limit → i + k = limit →
  read_semaphore s = Some (k + m) →
  solo k job (Draining i) s
  = (Draining limit,
     add_log (replicate k EvSemAcquire) (set_read_semaphore (Some m) s)).
Proof.
  induction k as [|k IH]; intros i s m El Ei Es; simpl.
  - destruct s; simpl in *. subst.
    rewrite Nat.add_0_r. unfold add_log, set_read_semaphore. simpl.
    by rewrite app_nil_r.
  - unfold_stmt. rewrite El. simpl.
    destruct (decide (i < limit)) as [_|]; [|lia].
    rewrite Es. simpl.
    rewrite (IH (S i) _ m); [|done|lia|done].
    f_equal. destruct s; unfold add_log, set_read_semaphore, emit; simpl.
    by rewrite <- app_assoc.
Qed.

Lemma solo_refill job limit result k : ∀ j s m,
  read_limit s = Some limit → j + k = limit →
  read_semaphore s = Some m →
  solo k job (Refilling result j) s
  = (Refilling result limit,
     add_log (replicate k EvSemRelease)
       (set_read_semaphore (Some (k + m)) s)).
Proof.
  induction k as [|k IH]; intros j s m El Ej Es; simpl.
  - destruct s; simpl in *. subst.
    rewrite Nat.add_0_r. unfold add_log, set_read_semaphore. simpl.
    by rewrite app_nil_r.
  - unfold_stmt. rewrite El. simpl.
    destruct (decide (j < limit)) as [_|]; [|lia].
    rewrite Es. simpl.
    rewrite (IH (S j) _ (S m)); [|done|lia|done].
    f_equal. destruct s; unfold add_log, set_read_semaphore, emit; simpl.
    rewrite <- app_assoc. simpl. do 3 f_equal. lia.
Qed.

Lemma solo_write job mutate limit s :
  mutation job = Some mutate → idle limit 0 s →
  solo (limit + limit + 11) job Start s
  = (Returned (mutate (data s)).1, written limit (mutate (data s)).2 s).
Proof.
  intros Em (Ed & Er & Ew & El & Es).
  destruct s as [d f dl rl rdl wl sem fsys lg]. simpl in *. subst.
  replace (limit + limit + 11) with (2 + (limit + (6 + (limit + 3))))
    by lia.
  remember (limit + 3) as n3 eqn:E3.
  remember (6 + n3) as n2 eqn:E2.
  remember (limit + n2) as n1 eqn:E1.
  rewrite (solo_add 2).
  destruct job as [key v|key|key]; simpl in Em; [|discriminate|];
    injection Em as <-.
  1: destruct (DataBase.set_value key v d) as [r d'] eqn:Em.
  2: destruct (DataBase.delete key d) as [r d'] eqn:Em.
  all: crank.
  all: rewrite E1, (solo_add limit).
  all: rewrite (solo_drain _ limit limit 0 _ 0) by (done || lia).
  all: unfold add_log, set_read_semaphore; simpl.
  all: rewrite E2, (solo_add 6).
  all: crank; rewrite Em; crank.
  all: rewrite E3, (solo_add limit).
  all: rewrite (solo_refill _ limit _ limit 0 _ 0) by (done || lia).
  all: unfold add_log, set_read_semaphore; simpl.
  all: crank.
  all: unfold written, add_log, protocol_trace, set_fs, set_data, emit; simpl.
  all: rewrite insert_insert_eq.
  all: do 2 f_equal.
  all: repeat (rewrite <- app_assoc; simpl); reflexivity.
Qed.

Lemma solo_read key s n :
  read_semaphore s = Some (S n) →
  match SynchronizedDataBase.value_get key s with
  | Returns x s' => solo 5 (ValueGet key) Start s = (Returned x, s')
  | Raises e s' => solo 5 (ValueGet key) Start s = (Raised e, s')
  | Blocks _ => False
  end.
Proof.
  intros Es. rewrite (value_get_eq key s n Es), load_eq.
  destruct s as [d f dl rl rdl wl sem fsys lg]. simpl in *. subst.
  crank.
  destruct (fsys !! f) as [b|]; crank; [|done].
  destruct (pickle_load b) as [e|d']; crank; [|done].
  destruct e; crank; done.
Qed.

(** [value_set], run alone statement by statement in the pool, returns what
    the method returns and leaves the state that the method leaves. *)
Lemma write_alone limit s hs pr job mutate :
  mutation job = Some mutate → idle limit 0 s →
  let c := run (replicate (limit + limit + 11) 0) (launch s hs [(pr, job)]) in
  pool c = [mkThread pr job (Returned (mutate (hs pr)).1)] ∧
  set_data (heaps c pr) (shared c)
  = written limit (mutate (hs pr)).2 (set_data (hs pr) s).
Proof.
  intros Em Hidle c.
  assert (idle limit 0 (set_data (hs pr) s)) as Hidle' by done.
 destruct (run_solo (limit + limit + 11) (launch s hs [(pr, job)])
              pr job Start eq_refl) as [Hp Hs].
 fold c in Hp, Hs.
 unfold launch in Hp, Hs. cbn [heaps shared] in Hp, Hs.
 rewrite (solo_write job mutate limit _ Em Hidle') in Hp, Hs.
 done.
Qed.

Lemma value_set_alone limit s hs pr key v :
  idle limit 0 s →
  let c := run (replicate (limit + limit + 11) 0)
             (launch s hs [(pr, ValueSet key v)]) in
  ∃ r s',
    SynchronizedDataBase.value_set key v (set_data (hs pr) s) = Returns r s' ∧
    pool c = [mkThread pr (ValueSet key v) (Returned (PyBool r))] ∧
    set_data (heaps c pr) (shared c) = s'.
Proof.
  intros Hidle c.
  exists (DataBase.set_value key v (hs pr)).1,
    (written limit (DataBase.set_value key v (hs pr)).2 (set_data (hs pr) s)).
  split.
  - rewrite value_set_write_call.
    apply (write_call_idle _ limit 0 (set_data (hs pr) s)), Hidle.
  - apply (write_alone limit s hs pr (ValueSet key v) _ eq_refl Hidle).
Qed.

Lemma value_delete_alone limit s hs pr key :
  idle limit 0 s →
  let c := run (replicate (limit + limit + 11) 0)
             (launch s hs [(pr, ValueDelete key)]) in
  ∃ r s',
    SynchronizedDataBase.value_delete key (set_data (hs pr) s) = Returns r s' ∧
    pool c = [mkThread pr (ValueDelete key) (Returned r)] ∧
    set_data (heaps c pr) (shared c) = s'.
Proof.
  intros Hidle c.
  exists (DataBase.delete key (hs pr)).1,
    (written limit (DataBase.delete key (hs pr)).2 (set_data (hs pr) s)).
  split.
  - rewrite value_delete_write_call.
    apply (write_call_idle _ limit 0 (set_data (hs pr) s)), Hidle.
  - apply (write_alone limit s hs pr (ValueDelete key) _ eq_refl Hidle).
Qed.

(** [value_get] likewise, whether it returns or raises. *)
Lemma value_get_alone s hs pr key n :
  read_semaphore s = Some (S n) →
  let c := run (replicate 5 0) (launch s hs [(pr, ValueGet key)]) in
  match SynchronizedDataBase.value_get key (set_data (hs pr) s) with
  | Returns x s' =>
      pool c = [mkThread pr (ValueGet key) (Returned x)] ∧
      set_data (heaps c pr) (shared c) = s'
  | Raises e s' =>
      pool c = [mkThread pr (ValueGet key) (Raised e)] ∧
      set_data (heaps c pr) (shared c) = s'
  | Blocks _ => False
  end.
Proof.
  intros Es c.
  destruct (run_solo 5 (launch s hs [(pr, ValueGet key)])
              pr (ValueGet key) Start eq_refl) as [Hp Hs].
  fold c in Hp, Hs. unfold launch in Hp, Hs. cbn [heaps shared] in Hp, Hs.
  pose proof (solo_read key (set_data (hs pr) s) n Es) as Hr.
  destruct (SynchronizedDataBase.value_get key (set_data (hs pr) s))
    as [x s'|e s'|s']; [| |done]; by rewrite Hr in Hp, Hs.
Qed.

End Alone.

(** ** Concurrent runs on the reference [pickle] *)

Section ConcurrentExamples.
Import Concurrent ConcurrentDemo.

Example writer_first_pcs :
  at_pc <$> pool (run writer_first two_calls)
  = [Dumping (PyBool true); Start].
Proof. vm_compute. reflexivity. Qed.

Example reader_first_pcs :
  at_pc <$> pool (run reader_first two_calls)
  = [Draining 9; Assigning {[0%Z := PyInt 1]}].
Proof. vm_compute. reflexivity. Qed.

Example both_return :
  let c := run both two_calls in
  (at_pc <$> pool c, fs (shared c) !! "test.pkl",
   read_semaphore (shared c))
  = ([Returned (PyBool true); Returned (PyInt 1)],
     Some (Reference.Pickled {[0%Z := PyInt 1; 1%Z := PyInt 2]}),
     Some 10).
Proof. vm_compute. reflexivity. Qed.

End ConcurrentExamples.

Lemma readers_and_writers_exclude_witness :
  idle 10 0 Demo.store_on_pickle ∧
  Concurrent.at_pc
    <$> Concurrent.pool
          (Concurrent.run ConcurrentDemo.writer_first
             ConcurrentDemo.two_calls)
  = [Concurrent.Dumping (PyBool true); Concurrent.Start] ∧
  exclusive
    (Concurrent.run ConcurrentDemo.writer_first ConcurrentDemo.two_calls) ∧
  drained
    (Concurrent.run ConcurrentDemo.writer_first ConcurrentDemo.two_calls) ∧
  observed
    (Concurrent.run ConcurrentDemo.reader_first ConcurrentDemo.two_calls) ∧
  whole_when_read Demo.store_on_pickle
    (Concurrent.run ConcurrentDemo.reader_first ConcurrentDemo.two_calls).
Proof.
  assert (idle 10 0 Demo.store_on_pickle) as Hidle by (by vm_compute).
  split; [exact Hidle|].
  split; [vm_compute; reflexivity|].
  pose proof (readers_and_writers_exclude 10 Demo.store_on_pickle
                (λ _, data Demo.store_on_pickle)
                [(0, Concurrent.ValueSet 1%Z (PyInt 2));
                 (0, Concurrent.ValueGet 0%Z)]
                _ Hidle (run_reachable ConcurrentDemo.writer_first _))
    as (Hex & Hdr & _ & _).
  pose proof (readers_and_writers_exclude 10 Demo.store_on_pickle
                (λ _, data Demo.store_on_pickle)
                [(0, Concurrent.ValueSet 1%Z (PyInt 2));
                 (0, Concurrent.ValueGet 0%Z)]
                _ Hidle (run_reachable ConcurrentDemo.reader_first _))
    as (_ & _ & Hob & Hwh).
  split_and!; [exact Hex|exact Hdr|exact Hob|exact Hwh].
Defined.

(** * More on the mapping (class [DataBase]) *)

Section DataBase_more.
Context {K : Type} `{Countable K}.
Implicit Types (key k : K) (data d : gmap K value) (v w : value).

(** X1. Setting an absent key and deleting it again gives back the value
    that was set and leaves the dict as it was before the two calls. *)
Theorem set_value_then_delete k v d :
  d !! k = None →
  DataBase.delete k (DataBase.set_value k v d).2 = (v, d).
Proof.
  intros E. rewrite (set_value_absent _ _ _ E). simpl.
  rewrite (delete_present k v) by apply lookup_insert_eq.
  by rewrite delete_insert_id.
Qed.

(** X2. After [delete] of a key, bound or not, the key is free: a second
    [delete] returns [None] and changes nothing, and [set_value] on it
    returns [True] and binds the new value, which [get_value] then
    returns. *)
Theorem delete_frees_key k v d :
  let d1 := (DataBase.delete k d).2 in
  DataBase.delete k d1 = (PyNone, d1) ∧
  DataBase.set_value k v d1 = (true, <[k := v]> d1) ∧
  DataBase.get_value k (DataBase.set_value k v d1).2 = v.
Proof.
  intros d1.
  assert (d1 !! k = None) as E.
  { unfold d1, DataBase.delete, DataBase.dict_pop.
    destruct (DataBase.contains k d) eqn:Ec; simpl.
    - apply lookup_delete_eq.
    - by apply contains_false. }
  rewrite (delete_absent _ _ E), (set_value_absent _ _ _ E).
  split_and!; [done|done|]. simpl.
  by rewrite get_value_lookup, lookup_insert_eq.
Qed.

(** X3. A key bound to [None] cannot be told from an absent key by
    [get_value] or by the result of [delete]: each gives [None] exactly when
    the key is absent or bound to [None].  Yet [set_value] does store [None]
    under an absent key (it returns [True]): the key is then in the dict and
    every later [set_value] on it returns [False] and changes nothing. *)
Theorem stored_none_reads_as_absent k d :
  (DataBase.get_value k d = PyNone ↔
     d !! k = None ∨ d !! k = Some PyNone) ∧
  ((DataBase.delete k d).1 = PyNone ↔
     d !! k = None ∨ d !! k = Some PyNone) ∧
  (d !! k = None →
     let d1 := (DataBase.set_value k PyNone d).2 in
     DataBase.set_value k PyNone d = (true, d1) ∧
     DataBase.get_value k d1 = PyNone ∧
     DataBase.contains k d1 = true ∧
     ∀ v, DataBase.set_value k v d1 = (false, d1)).
Proof.
  split_and!.
  - rewrite get_value_lookup. destruct (d !! k) as [w|]; simpl.
    + split; [intros ->; by right|]. by intros [|[= ->]].
    + split; [by left|done].
  - unfold DataBase.delete, DataBase.contains, DataBase.dict_pop.
    destruct (d !! k) as [w|]; simpl.
    + split; [intros ->; by right|]. by intros [|[= ->]].
    + split; [by left|done].
  - intros E d1. unfold d1. rewrite (set_value_absent _ _ _ E). simpl.
    assert (<[k := PyNone]> d !! k = Some PyNone) as E'
      by apply lookup_insert_eq.
    split_and!; [done| | |].
    + by rewrite get_value_lookup, E'.
    + apply contains_true. by rewrite E'.
    + intros v. by apply (set_value_present _ _ PyNone).
Qed.

(** X4. What the results say about the keys: [set_value] adds its key to
    the keys of the dict and [delete] removes its key from them, nothing
    else; [set_value] returns [True] exactly when it changed the dict, which
    is exactly when the dict grew by one entry; [delete] shrinks the dict by
    one entry exactly when the key was bound, and leaves it as it was exactly
    when the key was not. *)
Theorem results_and_domains k v d :
  dom (DataBase.set_value k v d).2 = {[k]} ∪ dom d ∧
  dom (DataBase.delete k d).2 = dom d ∖ {[k]} ∧
  ((DataBase.set_value k v d).1 = true ↔ (DataBase.set_value k v d).2 ≠ d) ∧
  ((DataBase.set_value k v d).1 = true ↔
     size (DataBase.set_value k v d).2 = S (size d)) ∧
  (k ∈ dom d ↔ S (size (DataBase.delete k d).2) = size d) ∧
  (k ∉ dom d ↔ (DataBase.delete k d).2 = d).
Proof.
  destruct (d !! k) as [w|] eqn:E.
  - rewrite (set_value_present _ _ _ _ E), (delete_present _ _ _ E). simpl.
    assert (k ∈ dom d) as Hin by (apply elem_of_dom; eauto).
    split_and!.
    + symmetry. apply subseteq_union_1_L. by apply singleton_subseteq_l.
    + by rewrite dom_delete_L.
    + done.
    + split; [done|lia].
    + split; [|done]. intros _.
      rewrite <- (insert_delete_id d k w) at 2 by done.
      rewrite map_size_insert_None; [done|apply lookup_delete_eq].
    + split; [done|]. intros Hd. exfalso.
      assert (base.delete k d !! k = Some w) as Hc by (by rewrite Hd).
      by rewrite lookup_delete_eq in Hc.
  - rewrite (set_value_absent _ _ _ E), (delete_absent _ _ E). simpl.
    assert (k ∉ dom d) as Hin by (by apply not_elem_of_dom).
    split_and!.
    + by rewrite dom_insert_L.
    + symmetry. apply difference_disjoint_L. by apply disjoint_singleton_r.
    + split; [|done]. intros _ Hd.
      assert (<[k := v]> d !! k = None) as Hc by (by rewrite Hd).
      by rewrite lookup_insert_eq in Hc.
    + split; [|done]. intros _. by apply map_size_insert_None.
    + split; [done|lia].
    + done.
Qed.

(** X5. Calls on different keys commute: two [set_value]s, or a
    [set_value] and a [delete], on keys [k1 ≠ k2] give the same dict in
    either order, and each call returns what it returns when it runs
    first. *)
Theorem mutations_commute k1 k2 v1 v2 d :
  k1 ≠ k2 →
  let s1 := DataBase.set_value k1 v1 in
  let s2 := DataBase.set_value k2 v2 in
  let d2 := DataBase.delete k2 in
  ((s2 (s1 d).2).2 = (s1 (s2 d).2).2 ∧
   (s1 (s2 d).2).1 = (s1 d).1 ∧ (s2 (s1 d).2).1 = (s2 d).1) ∧
  ((d2 (s1 d).2).2 = (s1 (d2 d).2).2 ∧
   (s1 (d2 d).2).1 = (s1 d).1 ∧ (d2 (s1 d).2).1 = (d2 d).1).
Proof.
  intros Hne s1 s2 d2. unfold s1, s2, d2.
  unfold DataBase.set_value, DataBase.delete, DataBase.dict_pop,
    DataBase.contains.
  destruct (d !! k1) as [w1|] eqn:E1, (d !! k2) as [w2|] eqn:E2; simpl;
    rewrite ?lookup_insert_ne, ?lookup_delete_ne, ?E1, ?E2 by done; simpl;
    rewrite ?lookup_insert_ne, ?lookup_delete_ne, ?E1, ?E2 by done; simpl;
    split_and!; try done;
    first [by apply insert_insert_ne | by rewrite delete_insert_ne].
Qed.

End DataBase_more.

(** * More on persistence and on single calls *)

Section Calls_more.
Context {K : Type} `{Pickle K}.
Implicit Types (s : State K) (d : gmap K value) (k : K) (v w : value).


(** X7. [load] writes no file and keeps [self.filename] whatever its
    outcome; when it raises, [self.data] is as before; and after a [load]
    that returned, a second [load] returns too, with the same
    [self.data]. *)
Theorem load_reads_only s :
  fs (Demo.state_of (SerializedDataBase.load s)) = fs s ∧
  filename (Demo.state_of (SerializedDataBase.load s)) = filename s ∧
  (∀ e s1, SerializedDataBase.load s = Raises e s1 → data s1 = data s) ∧
  (∀ s1, SerializedDataBase.load s = Returns () s1 →
     ∃ s2, SerializedDataBase.load s1 = Returns () s2 ∧ data s2 = data s1).
Proof.
  rewrite load_eq.
  destruct (fs s !! filename s) as [b|] eqn:Ef; simpl.
  - destruct (pickle_load b) as [e|d] eqn:El; simpl.
    + destruct (caught e) eqn:Ec; simpl.
      * split_and!; [done|done|done|]. intros s1 [= <-].
        rewrite load_eq. simpl. rewrite Ef, El, Ec. simpl. eauto.
      * split_and!; [done|done| |done]. by intros e' s1 [= _ <-].
    + split_and!; [done|done|done|]. intros s1 [= <-].
      rewrite load_eq. simpl. rewrite Ef, El. simpl. eauto.
  - split_and!; [done|done|done|]. intros s1 [= <-].
    rewrite load_eq. simpl. rewrite Ef. eauto.
Qed.

(** X8. With mode ['threads'] or ['processes'] the constructor of
    [SynchronizedDataBase] returns exactly when that of [SerializedDataBase]
    does, with the same [self.data], which is what the file unpickles to (an
    empty dict without a file); it writes no file and leaves the three locks
    free, [read_limit] at 10 and ten permits in the semaphore.  An exception
    of the parent's constructor propagates.  Both modes build the same
    object, the primitives of [threading] and of [multiprocessing] being
    modelled alike. *)
Theorem valid_mode_builds_idle_store file mode files :
  mode = "threads" ∨ mode = "processes" →
  (∀ s1, SerializedDataBase.init file (fresh files) = Returns () s1 →
     ∃ s, SynchronizedDataBase.init file mode (fresh files) = Returns () s ∧
          idle 10 0 s ∧ data s = data s1 ∧ filename s = file ∧
          fs s = files ∧ on_disk s = inr (data s)) ∧
  (∀ e s1, SerializedDataBase.init file (fresh files) = Raises e s1 →
     SynchronizedDataBase.init file mode (fresh files) = Raises e s1) ∧
  SynchronizedDataBase.init file "threads" (fresh files)
  = SynchronizedDataBase.init file "processes" (fresh files).
Proof.
  intros Hm. split_and!.
  - intros s1 E. eexists. split.
    + unfold SynchronizedDataBase.init.
      unfold mbind at 1, M_bind at 1, bind at 1. rewrite E.
      destruct Hm as [-> | ->]; reflexivity.
    + revert E. rewrite serialized_init_eq, load_eq. unfold on_disk. simpl.
      destruct (files !! file) as [b|] eqn:Ef; simpl.
      * destruct (pickle_load b) as [e|d] eqn:El; simpl.
        -- destruct (caught e) eqn:Ec; [|done]. intros [= <-]. simpl.
           by rewrite Ef, El, Ec.
        -- intros [= <-]. simpl. by rewrite Ef, El.
      * intros [= <-]. simpl. by rewrite Ef.
  - intros e s1 E. unfold SynchronizedDataBase.init.
    unfold mbind at 1, M_bind at 1, bind at 1. by rewrite E.
  - unfold SynchronizedDataBase.init, mbind, M_bind, bind.
    by destruct (SerializedDataBase.init file (fresh files)).
Qed.

(** X9. [value_get] writes no file and leaves [self.filename], the three
    locks and [read_limit] as they are, whether it returns, raises or waits;
    with no permit in the semaphore it waits without having changed
    anything. *)
Theorem value_get_never_writes k s :
  let s' := Demo.state_of (SynchronizedDataBase.value_get k s) in
  fs s' = fs s ∧ filename s' = filename s ∧
  data_lock s' = data_lock s ∧ read_lock s' = read_lock s ∧
  write_lock s' = write_lock s ∧ read_limit s' = read_limit s ∧
  (read_semaphore s = Some 0 →
     SynchronizedDataBase.value_get k s = Blocks s).
Proof.
  destruct (read_semaphore s) as [[|n]|] eqn:Es.
  - unfold SynchronizedDataBase.value_get, SynchronizedDataBase.sem_acquire.
    unfold_monad. by rewrite Es.
  - rewrite (value_get_eq k s n Es), load_eq. simpl.
    destruct (fs s !! filename s) as [b|]; simpl; [|done].
    destruct (pickle_load b) as [e|d]; simpl; [|done].
    by destruct (caught e).
  - unfold SynchronizedDataBase.value_get, SynchronizedDataBase.sem_acquire.
    unfold_monad. by rewrite Es.
Qed.

Lemma for_range_sem_acquire_short n : ∀ s m,
  read_semaphore s = Some m → m < n →
  for_range n (SynchronizedDataBase.sem_acquire;; mret ()) s
  = Blocks (add_log (replicate m EvSemAcquire)
              (set_read_semaphore (Some 0) s)).
Proof.
  induction n as [|n IH]; intros s m E Hlt; [lia|]. simpl.
  unfold SynchronizedDataBase.sem_acquire at 1. unfold_monad.
  rewrite E. destruct m as [|m]; simpl.
  - destruct s; simpl in *. subst. unfold add_log, set_read_semaphore.
    simpl. by rewrite app_nil_r.
  - rewrite (IH _ m); [|done|lia].
    f_equal. destruct s; unfold add_log, set_read_semaphore, emit; simpl.
    by rewrite <- app_assoc.
Qed.

(** X10. [value_get] releases its permit after [load] and outside any
    [try]: when the contents of the file make [pickle.load] raise an
    exception other than the two that [load] handles, [value_get] raises it
    and its permit stays taken.  Every later [value_set] or [value_delete]
    on the object then waits for ever in its loop of [acquire]s, holding
    [write_lock] and [read_lock], with the semaphore emptied, and with
    [self.data] and the files unchanged. *)
Theorem failed_read_leaks_permit k k2 v limit s b e :
  idle (S limit) 0 s →
  fs s !! filename s = Some b → pickle_load b = inl e → caught e = false →
  ∃ s1,
    SynchronizedDataBase.value_get k s = Raises e s1 ∧
    read_semaphore s1 = Some limit ∧ data s1 = data s ∧ fs s1 = fs s ∧
    ∃ s2 s3,
      SynchronizedDataBase.value_set k2 v s1 = Blocks s2 ∧
      SynchronizedDataBase.value_delete k2 s1 = Blocks s3 ∧
      write_lock s2 = Some true ∧ read_lock s2 = Some true ∧
      read_semaphore s2 = Some 0 ∧ data s2 = data s ∧ fs s2 = fs s ∧
      write_lock s3 = Some true ∧ read_lock s3 = Some true ∧
      read_semaphore s3 = Some 0 ∧ data s3 = data s ∧ fs s3 = fs s.
Proof.
  intros (Ed & Er & Ew & El & Es) Ef Ep Ec.
  rewrite Nat.add_0_r in Es.
  eexists. split_and!.
  - rewrite (value_get_eq k s limit Es), load_eq. simpl.
    rewrite Ef. simpl. rewrite Ep, Ec. reflexivity.
  - done.
  - done.
  - done.
  - assert (∀ {A} (mutate : gmap K value → A * gmap K value),
              ∃ s2, write_call mutate
                      (emit (EvRead (filename s))
                         (emit EvSemAcquire
                            (set_read_semaphore (Some limit) s)))
                    = Blocks s2 ∧
                    write_lock s2 = Some true ∧ read_lock s2 = Some true ∧
                    read_semaphore s2 = Some 0 ∧ data s2 = data s ∧
                    fs s2 = fs s) as Hblock.
    { intros A mutate.
      destruct s as [d f dl rl rdl wl sem fsys lg]. simpl in *. subst.
      remember (S limit) as n eqn:En. eexists.
      unfold write_call, SynchronizedDataBase.with_lock, finally,
        SynchronizedDataBase.acquire, SynchronizedDataBase.drain.
      unfold_monad. simpl.
      rewrite (for_range_sem_acquire_short n _ limit) by (done || lia).
      simpl. done. }
    destruct (Hblock _ (DataBase.set_value k2 v)) as (s2 & E2 & H2).
    destruct (Hblock _ (DataBase.delete k2)) as (s3 & E3 & H3).
    exists s2, s3. rewrite value_set_write_call, value_delete_write_call.
    destruct H2 as (?&?&?&?&?), H3 as (?&?&?&?&?). done.
Qed.

End Calls_more.

Section Calls_round_trip.
Context {K : Type} `{PickleRoundTrip K}.
Implicit Types (s : State K) (d : gmap K value) (k : K) (v w : value).

Lemma value_get_after_write limit spare d k s :
  idle limit spare s → 0 < limit + spare →
  ∃ s2,
    SynchronizedDataBase.value_get k (written limit d s)
    = Returns (DataBase.get_value k d) s2 ∧
    idle limit spare s2 ∧ data s2 = d ∧ filename s2 = filename s ∧
    fs s2 = <[filename s := pickle_dump d]> (fs s).
Proof.
  intros (Ed & Er & Ew & El & Es) Hpos.
  destruct (limit + spare) as [|n] eqn:En; [lia|].
  eexists. split.
  - rewrite (value_get_eq k _ n) by done.
    rewrite load_eq. simpl. rewrite lookup_insert_eq. simpl.
    rewrite pickle_load_dump. reflexivity.
  - simpl. unfold idle. simpl. rewrite En. done.
Qed.

Lemma set_value_lookup_ne k k' v (d : gmap K value) :
  k ≠ k' → (DataBase.set_value k v d).2 !! k' = d !! k'.
Proof.
  intros Hne. unfold DataBase.set_value.
  destruct (DataBase.contains k d); simpl; [done|].
  by rewrite lookup_insert_ne.
Qed.

(** X11. On an idle store with a permit to take, [value_set] (and
    [value_delete]) followed by [value_get] of any key returns what that key
    is bound to in the dict after the mutation, and leaves the store idle
    with that dict as [self.data]. *)
Theorem read_your_writes k k' v limit spare s :
  idle limit spare s → 0 < limit + spare →
  (∃ r s1 s2,
     SynchronizedDataBase.value_set k v s = Returns r s1 ∧
     SynchronizedDataBase.value_get k' s1
     = Returns (DataBase.get_value k' (DataBase.set_value k v (data s)).2) s2 ∧
     idle limit spare s2 ∧
     data s2 = (DataBase.set_value k v (data s)).2) ∧
  (∃ r s1 s2,
     SynchronizedDataBase.value_delete k s = Returns r s1 ∧
     SynchronizedDataBase.value_get k' s1
     = Returns (DataBase.get_value k' (DataBase.delete k (data s)).2) s2 ∧
     idle limit spare s2 ∧
     data s2 = (DataBase.delete k (data s)).2).
Proof.
  intros Hidle Hpos. split.
  - destruct (value_get_after_write limit spare
                (DataBase.set_value k v (data s)).2 k' s Hidle Hpos)
      as (s2 & E2 & Hi & Hd & _).
    eexists _, _, s2. split_and!; [|exact E2|exact Hi|exact Hd].
    rewrite value_set_write_call.
    apply (write_call_idle _ limit spare s Hidle).
  - destruct (value_get_after_write limit spare
                (DataBase.delete k (data s)).2 k' s Hidle Hpos)
      as (s2 & E2 & Hi & Hd & _).
    eexists _, _, s2. split_and!; [|exact E2|exact Hi|exact Hd].
    rewrite value_delete_write_call.
    apply (write_call_idle _ limit spare s Hidle).
Qed.

(** X12. The write path does not [load] before it mutates.  With two
    objects on one file (as in two processes), when A sets [kA], and then B,
    whose [self.data] has no [kA], sets another key, B's dump replaces the
    file and A's [value_get] of [kA] returns [None]: A's update is lost. *)
Theorem stale_writer_loses_update kA kB vA vB lA spA lB spB sA sB :
  idle lA spA sA → idle lB spB sB → 0 < lA + spA →
  filename sA = filename sB →
  kA ≠ kB → data sB !! kA = None →
  ∃ rA sA1 rB sB1 sA2,
    SynchronizedDataBase.value_set kA vA sA = Returns rA sA1 ∧
    SynchronizedDataBase.value_set kB vB (set_fs (fs sA1) sB)
    = Returns rB sB1 ∧
    SynchronizedDataBase.value_get kA (set_fs (fs sB1) sA1)
    = Returns PyNone sA2.
Proof.
  intros HA HB Hpos Hf Hne Eb.
  pose proof HA as (Ed & Er & Ew & El & Es).
  destruct (lA + spA) as [|n] eqn:En; [lia|].
  eexists _, _, _, _, _. split_and!.
  - rewrite value_set_write_call. apply (write_call_idle _ lA spA sA HA).
  - rewrite value_set_write_call.
    apply (write_call_idle _ lB spB (set_fs _ sB)), HB.
  - rewrite (value_get_eq kA _ n) by done.
    rewrite load_eq. simpl. rewrite Hf, lookup_insert_eq. simpl.
    rewrite pickle_load_dump. simpl.
    rewrite get_value_lookup.
    pose proof (set_value_lookup_ne kB kA vB (data sB) (not_eq_sym Hne)) as E.
    rewrite E, Eb. reflexivity.
Qed.

End Calls_round_trip.

(** * The self-test *)

Section Main_facts.
Context `{Pickle Z}.

Lemma exercise_eq line (data : gmap Z value) :
  Main.exercise line data
  = if DataBase.contains Main.key_ data then inl (Main.AssertionError line)
    else inr data.
Proof.
  unfold Main.exercise.
  destruct (DataBase.contains Main.key_ data) eqn:Ec.
  - unfold DataBase.set_value. by rewrite Ec.
  - apply contains_false in Ec.
    rewrite (set_value_absent _ _ _ Ec). simpl.
    rewrite get_value_lookup, lookup_insert_eq. simpl.
    rewrite (delete_present _ Main.value_) by apply lookup_insert_eq.
    rewrite get_value_lookup, lookup_delete_eq. simpl.
    by rewrite delete_insert_id.
Qed.

Lemma open_and_exercise_eq line mode files :
  mode = "threads" ∨ mode = "processes" →
  Main.open_and_exercise line mode files
  = (match on_disk (set_filename Main.file_name (fresh files)) with
     | inl e => inl (Main.Uncaught e)
     | inr d =>
         if DataBase.contains Main.key_ d
         then inl (Main.AssertionError line)
         else inr ()
     end, files).
Proof.
  intros Hm. unfold Main.open_and_exercise, SynchronizedDataBase.init.
  unfold mbind at 1, M_bind at 1, bind at 1.
  rewrite serialized_init_eq, load_eq. unfold on_disk. simpl.
  destruct (files !! Main.file_name) as [b|] eqn:Ef; simpl.
  - destruct (pickle_load b) as [e|d] eqn:El; simpl.
    + destruct (caught e) eqn:Ec; simpl; [|done].
      destruct Hm as [-> | ->]; simpl; rewrite exercise_eq; simpl; done.
    + destruct Hm as [-> | ->]; simpl; rewrite exercise_eq;
        by destruct (DataBase.contains Main.key_ d).
  - destruct Hm as [-> | ->]; simpl; rewrite exercise_eq; simpl; done.
Qed.

(** X13. The self-test under [__main__] writes no file: on its three
    objects it calls the methods of [DataBase], never [value_set].  It ends
    with the exception that [SynchronizedDataBase('test.pkl', 'threads')]
    lets through when [test.pkl] does not unpickle, fails the [assert] of
    line 141 when [test.pkl] unpickles to a dict that binds key 0, and
    otherwise (no file, an empty file, a dict without key 0) passes all nine
    assertions. *)
Theorem main_verdict files :
  Main.main files
  = (match on_disk (set_filename Main.file_name (fresh files)) with
     | inl e => inl (Main.Uncaught e)
     | inr d =>
         if DataBase.contains Main.key_ d
         then inl (Main.AssertionError 141)
         else inr ()
     end, files).
Proof.
  unfold Main.main. rewrite exercise_eq. simpl.
  rewrite (open_and_exercise_eq 141) by auto.
  destruct (on_disk _) as [e|d] eqn:Ed; [done|].
  destruct (DataBase.contains Main.key_ d) eqn:Ec; [done|].
  rewrite (open_and_exercise_eq 147) by auto.
  by rewrite Ed, Ec.
Qed.

End Main_facts.

(** * Concurrent calls: locks, permits and progress *)

Section Concurrent_more.
Context {K : Type} `{Pickle K}.
Import Concurrent.
Implicit Types (s : State K) (c : config K) (p : pc K).
Implicit Types (t ti tj : thread K) (ts : list (thread K)).

Lemma next_sound (job : call K) p s p' s' bd br bw limit n :
  data_lock s = Some bd → read_lock s = Some br → write_lock s = Some bw →
  read_limit s = Some limit → read_semaphore s = Some n →
  fits job p = true →
  holds DataLock p ≤ Nat.b2n bd → holds ReadLock p ≤ Nat.b2n br →
  holds WriteLock p ≤ Nat.b2n bw →
  next job p s = Some (p', s') →
  ∃ bd' br' bw' n',
    data_lock s' = Some bd' ∧ read_lock s' = Some br' ∧
    write_lock s' = Some bw' ∧ read_limit s' = Some limit ∧
    read_semaphore s' = Some n' ∧
    fits job p' = true ∧
    Nat.b2n bd' + holds DataLock p = Nat.b2n bd + holds DataLock p' ∧
    Nat.b2n br' + holds ReadLock p = Nat.b2n br + holds ReadLock p' ∧
    Nat.b2n bw' + holds WriteLock p = Nat.b2n bw + holds WriteLock p' ∧
    n' + owed limit p' = n + owed limit p.
Proof.
  intros Ed Er Ew El En Hfit Hd Hr Hw Hn.
  destruct job, p; try discriminate Hfit;
    unfold_stmt; unfold holds in *; simpl in *;
    repeat (case_match; simplify_eq/=); simplify_eq/=;
    try (exfalso; simpl in *; lia);
    eexists _, _, _, _; split_and!; try done; simpl; try lia.
Qed.

Lemma pool_sum_cons (f : pc K → nat) t ts :
  pool_sum f (t :: ts) = f (at_pc t) + pool_sum f ts.
Proof. reflexivity. Qed.

Lemma pool_sum_insert (f : pc K → nat) ts i t p' :
  ts !! i = Some t →
  pool_sum f (<[i := mkThread (proc t) (job t) p']> ts) + f (at_pc t)
  = pool_sum f ts + f p'.
Proof.
  revert i. induction ts as [|a ts IH]; intros i E; [done|].
  destruct i as [|i]; simplify_eq/=; rewrite !pool_sum_cons; simpl.
  - lia.
  - specialize (IH i E). lia.
Qed.

Lemma pool_sum_le (f : pc K → nat) ts i t :
  ts !! i = Some t → f (at_pc t) ≤ pool_sum f ts.
Proof.
  revert i. induction ts as [|a ts IH]; intros i E; [done|].
  destruct i as [|i]; simplify_eq/=; rewrite pool_sum_cons.
  - lia.
  - specialize (IH i E). lia.
Qed.

Lemma pool_sum_two (f : pc K → nat) ts i j ti tj :
  i ≠ j → ts !! i = Some ti → ts !! j = Some tj →
  f (at_pc ti) + f (at_pc tj) ≤ pool_sum f ts.
Proof.
  revert i j. induction ts as [|a ts IH]; intros i j Hne Ei Ej; [done|].
  destruct i as [|i], j as [|j]; simplify_eq/=; rewrite pool_sum_cons.
  - pose proof (pool_sum_le f ts j tj Ej). lia.
  - pose proof (pool_sum_le f ts i ti Ei). lia.
  - assert (i ≠ j) as Hne' by congruence.
    specialize (IH i j Hne' Ei Ej). lia.
Qed.

(** A sum of zeros. *)
Lemma pool_sum_zero (f : pc K → nat) ts :
  (∀ i t, ts !! i = Some t → f (at_pc t) = 0) → pool_sum f ts = 0.
Proof.
  induction ts as [|a ts IH]; intros Hz; [done|]. rewrite pool_sum_cons.
  rewrite (Hz 0 a eq_refl), IH; [done|].
  intros i t E. apply (Hz (S i) t E).
Qed.

(** A sum all of whose terms but one are zero. *)
Lemma pool_sum_one (f : pc K → nat) ts i t :
  ts !! i = Some t →
  (∀ j tj, j ≠ i → ts !! j = Some tj → f (at_pc tj) = 0) →
  pool_sum f ts = f (at_pc t).
Proof.
  revert i. induction ts as [|a ts IH]; intros i E Hz; [done|].
  rewrite pool_sum_cons. destruct i as [|i]; simplify_eq/=.
  - rewrite (pool_sum_zero f ts); [lia|].
    intros j tj Ej. apply (Hz (S j) tj); [lia|done].
  - rewrite (Hz 0 a); [|lia|done].
    apply (IH i E). intros j tj Hne Ej. apply (Hz (S j) tj); [lia|done].
Qed.

Lemma pool_sum_mono (f g : pc K → nat) ts :
  (∀ p, f p ≤ g p) → pool_sum f ts ≤ pool_sum g ts.
Proof.
  intros Hle. induction ts as [|a ts IH]; [done|]. rewrite !pool_sum_cons.
  specialize (Hle (at_pc a)). lia.
Qed.

Lemma pool_sum_launch (f : pc K → nat) (jobs : list (nat * call K)) :
  f Start = 0 →
  pool_sum f ((λ pj, mkThread pj.1 pj.2 Start) <$> jobs) = 0.
Proof.
  intros E. induction jobs as [|a jobs IH]; [done|].
  rewrite fmap_cons, pool_sum_cons. simpl. by rewrite E, IH.
Qed.

Lemma step_sound limit i c c' :
  sound limit c → step i c = Some c' → sound limit c'.
Proof.
  intros (bd & br & bw & n & Ed & Er & Ew & El & En & Sd & Sr & Sw & Sn & Hf)
    Hstep.
  apply step_inv in Hstep as (t & p' & s' & Et & Hn & ->).
  pose proof (pool_sum_le (holds DataLock) _ _ _ Et) as Ld.
  pose proof (pool_sum_le (holds ReadLock) _ _ _ Et) as Lr.
  pose proof (pool_sum_le (holds WriteLock) _ _ _ Et) as Lw.
  assert (fits (job t) (at_pc t) = true) as Hfit.
  { by apply (Forall_lookup_1 _ _ _ _ Hf Et). }
  eapply (next_sound _ _ _ _ _ bd br bw limit n) in Hn
    as (bd' & br' & bw' & n' & Ed' & Er' & Ew' & El' & En' & Hfit'
        & Hd & Hr & Hw & Ho); try done; try lia.
  exists bd', br', bw', n'. simpl.
  pose proof (pool_sum_insert (holds DataLock) _ _ _ p' Et).
  pose proof (pool_sum_insert (holds ReadLock) _ _ _ p' Et).
  pose proof (pool_sum_insert (holds WriteLock) _ _ _ p' Et).
  pose proof (pool_sum_insert (owed limit) _ _ _ p' Et).
  split_and!; try done; try lia.
  apply Forall_insert; done.
Qed.

Lemma launch_sound limit s hs (jobs : list (nat * call K)) :
  idle limit 0 s → sound limit (launch s hs jobs).
Proof.
  intros (Ed & Er & Ew & El & Es).
  exists false, false, false, limit. unfold launch. cbn [pool shared].
  rewrite !pool_sum_launch by done.
  split_and!; try done.
  - by rewrite Es, Nat.add_0_r.
  - apply Forall_fmap, Forall_forall. intros pj _. simpl. by destruct pj.2.
Qed.

Lemma reachable_sound limit c0 c :
  sound limit c0 → rtc steps c0 c → sound limit c.
Proof.
  intros Hs Hr. induction Hr as [|c1 c2 c3 [i Hstep] _ IH]; [done|].
  apply IH. by eapply step_sound.
Qed.

Lemma lock_eqb_eq a b : lock_eqb a b = true ↔ a = b.
Proof. by destruct a, b. Qed.

Lemma holds_elem l p : l ∈ holding p ↔ holds l p = 1.
Proof.
  unfold holds. destruct (existsb (lock_eqb l) (holding p)) eqn:E.
  - split; [done|]. intros _.
    apply existsb_exists in E as (x & Hin & Hx).
    apply lock_eqb_eq in Hx as ->. by apply list_elem_of_In.
  - split; [|done]. intros Hin. exfalso.
    assert (existsb (lock_eqb l) (holding p) = true) as E'; [|congruence].
    apply existsb_exists. exists l. split.
    + by apply list_elem_of_In.
    + by apply lock_eqb_eq.
Qed.

Lemma holds_le_1 l p : holds l p ≤ 1.
Proof. unfold holds. case_match; lia. Qed.

Lemma pool_sum_pos (f : pc K → nat) ts :
  0 < pool_sum f ts → ∃ i t, ts !! i = Some t ∧ 0 < f (at_pc t).
Proof.
  induction ts as [|a ts IH]; [unfold pool_sum; simpl; lia|].
  rewrite pool_sum_cons. intros Hpos.
  destruct (decide (0 < f (at_pc a))) as [Ha|Ha].
  - by exists 0, a.
  - destruct IH as (i & t & E & Ht); [lia|]. by exists (S i), t.
Qed.

(** X14. Each of [write_lock], [read_lock] and [data_lock] excludes: in
    every state that calls started on an idle store can reach, no two calls
    are inside the [with] block of the same lock, and the lock is held
    exactly when some call is inside its block. *)
Theorem each_lock_has_one_holder limit s hs (jobs : list (nat * call K)) c l :
  idle limit 0 s →
  rtc steps (launch s hs jobs) c →
  (∀ i j ti tj,
     i ≠ j → pool c !! i = Some ti → pool c !! j = Some tj →
     l ∈ holding (at_pc ti) → l ∉ holding (at_pc tj)) ∧
  (get_lock l (shared c) = Some true ↔
     ∃ i t, pool c !! i = Some t ∧ l ∈ holding (at_pc t)).
Proof.
  intros Hidle Hr.
  pose proof (reachable_sound _ _ _ (launch_sound limit s hs jobs Hidle) Hr)
    as (bd & br & bw & n & Ed & Er & Ew & _ & _ & Sd & Sr & Sw & _ & _).
  assert (∃ b, get_lock l (shared c) = Some b ∧
               pool_sum (holds l) (pool c) = Nat.b2n b) as (b & Eb & Sb).
  { destruct l; eauto. }
  split.
  - intros i j ti tj Hne Ei Ej Hi Hj.
    apply holds_elem in Hi, Hj.
    pose proof (pool_sum_two (holds l) _ _ _ _ _ Hne Ei Ej).
    destruct b; simpl in *; lia.
  - rewrite Eb. split.
    + intros [= ->]. destruct (pool_sum_pos (holds l) (pool c))
        as (i & t & E & Ht); [simpl in Sb; lia|].
      exists i, t. split; [done|]. apply holds_elem.
      pose proof (holds_le_1 l (at_pc t)). lia.
    + intros (i & t & E & Ht). apply holds_elem in Ht.
      pose proof (pool_sum_le (holds l) _ _ _ E).
      destruct b; [done|simpl in *; lia].
Qed.


(** X16. At most [read_limit] calls of [value_get] are between their
    [acquire] and their [release] at a time. *)
Theorem readers_are_bounded limit s hs (jobs : list (nat * call K)) c :
  idle limit 0 s →
  rtc steps (launch s hs jobs) c →
  pool_sum (λ p, Nat.b2n (reading p)) (pool c) ≤ limit.
Proof.
  intros Hidle Hr.
  pose proof (reachable_sound _ _ _ (launch_sound limit s hs jobs Hidle) Hr)
    as (_ & _ & _ & n & _ & _ & _ & _ & _ & _ & _ & _ & Sn & _).
  pose proof (pool_sum_mono (λ p, Nat.b2n (reading p)) (owed limit) (pool c))
    as Hle.
  assert (∀ p : pc K, Nat.b2n (reading p) ≤ owed limit p) as Hp.
  { intros p. destruct p; simpl; lia. }
  specialize (Hle Hp). lia.
Qed.

(** ** No deadlock *)

Lemma next_enabled (job : call K) p s bd br bw limit n :
  data_lock s = Some bd → read_lock s = Some br → write_lock s = Some bw →
  read_limit s = Some limit → read_semaphore s = Some n →
  fits job p = true →
  holds DataLock p ≤ Nat.b2n bd → holds ReadLock p ≤ Nat.b2n br →
  holds WriteLock p ≤ Nat.b2n bw →
  ready job p bd br bw limit n = true →
  is_Some (next job p s).
Proof.
  intros Ed Er Ew El En Hfit Hd Hr Hw Hready.
  destruct job, p; try discriminate Hfit; try discriminate Hready;
    unfold_stmt; unfold holds in *; simpl in *;
    rewrite ?Ed, ?Er, ?Ew, ?El, ?En; simpl;
    repeat (first [case_bool_decide | case_decide | case_match];
            simplify_eq/=);
    try (exfalso; simpl in *; lia); eauto.
Qed.

Lemma step_enabled i c t :
  pool c !! i = Some t →
  is_Some (next (job t) (at_pc t) (set_data (heaps c (proc t)) (shared c))) →
  ∃ c', step i c = Some c'.
Proof.
  intros Et [[p' s'] En]. unfold step. rewrite Et. simpl. rewrite En. simpl.
  eauto.
Qed.

(** Inside [with self.read_lock] or [with self.data_lock] is inside
    [with self.write_lock]. *)
Lemma holds_nested (job : call K) p :
  fits job p = true →
  holds ReadLock p ≤ holds WriteLock p ∧ holds DataLock p ≤ holds WriteLock p.
Proof. destruct job, p; try discriminate; unfold holds; simpl; lia. Qed.

Lemma owed_zero (job : call K) p limit :
  fits job p = true → reading p = false → raised p = false →
  holds WriteLock p = 0 → owed limit p = 0.
Proof. destruct job, p; try discriminate; unfold holds; simpl; lia. Qed.

Lemma idle_pc (job : call K) p :
  fits job p = true → reading p = false → raised p = false →
  holds WriteLock p = 0 → p = Start ∨ returned p = true.
Proof.
  destruct job, p; try discriminate; unfold holds; simpl; auto; lia.
Qed.

Lemma Exists_at (P : thread K → Prop) ts :
  Exists P ts ↔ ∃ i t, ts !! i = Some t ∧ P t.
Proof.
  split.
  - induction 1 as [t ts Ht|t ts _ (i & t' & E & Ht)].
    + by exists 0, t.
    + by exists (S i), t'.
  - intros (i & t & E & Ht). revert i E.
    induction ts as [|a ts IH]; intros i E; [done|].
    destruct i as [|i]; simplify_eq/=.
    + by apply Exists_cons_hd.
    + apply Exists_cons_tl. by eapply IH.
Qed.

(** X17. No deadlock: with a positive [read_limit], in every reachable
    state in which no call has raised, either every call has returned or
    some call can take its next step. *)
Theorem no_deadlock limit s hs (jobs : list (nat * call K)) c :
  idle limit 0 s → 0 < limit →
  rtc steps (launch s hs jobs) c →
  ¬ some_raised c →
  all_returned c ∨ ∃ i c', step i c = Some c'.
Proof.
  intros Hidle Hpos Hreach Hnr.
  pose proof (reachable_sound _ _ _ (launch_sound limit s hs jobs Hidle) Hreach)
    as (bd & br & bw & n & Ed & Er & Ew & El & En
        & Sd & Sr & Sw & Sn & Hf).
  assert (∀ i t, pool c !! i = Some t → raised (at_pc t) = false) as Hnr'.
  { intros i t Et. destruct (raised (at_pc t)) eqn:E; [|done].
    exfalso. apply Hnr, Exists_at. eauto. }
  assert (∀ i t, pool c !! i = Some t → fits (job t) (at_pc t) = true) as Hf'.
  { intros i t Et. by apply (Forall_lookup_1 _ _ _ _ Hf Et). }
  (* a thread whose statement is ready takes a step *)
  assert (∀ i t, pool c !! i = Some t →
            ready (job t) (at_pc t) bd br bw limit n = true →
            ∃ c', step i c = Some c') as Hgo.
  { intros i t Et Hready. apply (step_enabled i c t Et).
    pose proof (pool_sum_le (holds DataLock) _ _ _ Et).
    pose proof (pool_sum_le (holds ReadLock) _ _ _ Et).
    pose proof (pool_sum_le (holds WriteLock) _ _ _ Et).
    apply (next_enabled _ _ _ bd br bw limit n); try done; try lia.
    by eapply Hf'. }
  (* 1. a reader between acquire and release is never held up *)
  destruct (decide (Exists (λ t, reading (at_pc t) = true) (pool c)))
    as [Hrd|Hrd].
  { right. apply Exists_at in Hrd as (i & t & Et & Ht).
    exists i. apply (Hgo i t Et). by destruct (at_pc t). }
  assert (∀ i t, pool c !! i = Some t → reading (at_pc t) = false) as Hrd'.
  { intros i t Et. destruct (reading (at_pc t)) eqn:E; [|done].
    exfalso. apply Hrd, Exists_at. eauto. }
  (* 2. the call inside [with self.write_lock], if there is one *)
  destruct (decide (Exists (λ t, holds WriteLock (at_pc t) = 1) (pool c)))
    as [Hwr|Hwr].
  { right. apply Exists_at in Hwr as (i & t & Et & Ht).
    assert (∀ j tj, j ≠ i → pool c !! j = Some tj →
              holds WriteLock (at_pc tj) = 0) as Hothers.
    { intros j tj Hne Ej.
      pose proof (pool_sum_two (holds WriteLock) _ _ _ _ _ Hne Ej Et).
      destruct bw; simpl in *; lia. }
    exists i. apply (Hgo i t Et).
    pose proof (Hf' i t Et) as Hfit.
    destruct (at_pc t) eqn:Ep; try done;
      try (by destruct (job t)); try (unfold holds in Ht; simpl in Ht; lia).
    - (* before [with self.read_lock]: no one holds it *)
      simpl. assert (pool_sum (holds ReadLock) (pool c) = 0) as Hz.
      { apply pool_sum_zero. intros j tj Ej.
        destruct (decide (j = i)) as [->|Hne].
        - rewrite Et in Ej. injection Ej as <-. by rewrite Ep.
        - pose proof (holds_nested _ _ (Hf' j tj Ej)) as [Hle _].
          specialize (Hothers j tj Hne Ej). lia. }
      destruct br; [simpl in Sr; lia|done].
    - (* draining: the permits not in the semaphore are its own *)
      simpl. apply bool_decide_eq_true. intros Hlt.
      assert (pool_sum (owed limit) (pool c) = owed limit (at_pc t)) as Hone.
      { apply (pool_sum_one _ _ i t Et). intros j tj Hne Ej.
        apply (owed_zero (job tj)); eauto. }
      rewrite Ep in Hone. simpl in Hone. lia.
    - (* before [with self.data_lock]: no one holds it *)
      simpl. assert (pool_sum (holds DataLock) (pool c) = 0) as Hz.
      { apply pool_sum_zero. intros j tj Ej.
        destruct (decide (j = i)) as [->|Hne].
        - rewrite Et in Ej. injection Ej as <-. by rewrite Ep.
        - pose proof (holds_nested _ _ (Hf' j tj Ej)) as [_ Hle].
          specialize (Hothers j tj Hne Ej). lia. }
      destruct bd; [simpl in Sd; lia|done]. }
  assert (∀ i t, pool c !! i = Some t → holds WriteLock (at_pc t) = 0) as Hwr'.
  { intros i t Et. pose proof (holds_le_1 WriteLock (at_pc t)).
    destruct (decide (holds WriteLock (at_pc t) = 1)) as [E|E]; [|lia].
    exfalso. apply Hwr, Exists_at. eauto. }
  (* 3. no call is under way: the primitives are as at the start *)
  assert (bw = false) as ->.
  { rewrite (pool_sum_zero (holds WriteLock)) in Sw by done.
    by destruct bw. }
  assert (n = limit) as ->.
  { rewrite (pool_sum_zero (owed limit)) in Sn; [lia|].
    intros i t Et. apply (owed_zero (job t)); eauto. }
  destruct (decide (Exists (λ t, started (at_pc t) = true) (pool c)))
    as [Hst|Hst].
  { right. apply Exists_at in Hst as (i & t & Et & Ht).
    exists i. apply (Hgo i t Et).
    destruct (at_pc t); try discriminate Ht. simpl.
    destruct (job t); [done| |done]. by apply bool_decide_eq_true. }
  left. apply Forall_lookup. intros i t Et.
  destruct (idle_pc (job t) (at_pc t)) as [E|E]; eauto.
  exfalso. apply Hst, Exists_at. exists i, t. by rewrite E.
Qed.

End Concurrent_more.

(** * Threads of one process: no update is lost *)

Section Threads.
Context {K : Type} `{PickleRoundTrip K}.
Import Concurrent.
Implicit Types (s : State K) (c : config K) (p : pc K).
Implicit Types (t ti tj : thread K) (ts : list (thread K)).

Lemma set_value_keeps k k' v x (d : gmap K value) :
  d !! k' = Some x → (DataBase.set_value k v d).2 !! k' = Some x.
Proof.
  intros E. unfold DataBase.set_value, DataBase.contains.
  destruct (d !! k) as [w|] eqn:Ek; simpl; [done|].
  rewrite lookup_insert_ne; [done|]. intros ->. congruence.
Qed.

Lemma set_value_binds k v (d : gmap K value) :
  is_Some ((DataBase.set_value k v d).2 !! k) ∧
  ((DataBase.set_value k v d).1 = true →
   (DataBase.set_value k v d).2 !! k = Some v).
Proof.
  unfold DataBase.set_value, DataBase.contains.
  destruct (d !! k) as [w|] eqn:Ek; simpl.
  - split; [by rewrite Ek|done].
  - rewrite lookup_insert_eq. eauto.
Qed.

(** What a step does to [self.data]. *)
Lemma next_data (job : call K) p s p' s' :
  next job p s = Some (p', s') → is_delete job = false →
  match p with
  | Mutating =>
      ∃ key v, job = ValueSet key v ∧
               p' = Opening (PyBool (DataBase.set_value key v (data s)).1) ∧
               data s' = (DataBase.set_value key v (data s)).2
  | Assigning d => data s' = d
  | _ => data s' = data s
  end.
Proof.
  intros Hn Hd.
  destruct job, p; try discriminate Hd; unfold_stmt; simpl in *;
    repeat (case_match; simplify_eq/=); simplify_eq/=;
    try match goal with l : lock_attr |- _ => destruct l end;
    try done; eexists _, _; split_and!; try done.
  all: by match goal with E : DataBase.set_value _ _ _ = _ |- _ =>
            rewrite E end.
Qed.

(** The result, once got, goes unchanged to the [return]. *)
Lemma next_result key v p s p' s' r :
  next (ValueSet key v) p s = Some (p', s') →
  fits (ValueSet key v) p = true →
  result_at p' = Some r →
  p = Mutating ∨ result_at p = Some r.
Proof.
  intros Hn Hfit Hr.
  destruct p; try discriminate Hfit; unfold_stmt; simpl in *;
    repeat (case_match; simplify_eq/=); simplify_eq/=;
    try match goal with l : list lock_attr |- _ => destruct l end;
    simplify_eq/=; auto.
Qed.

Lemma next_persisting (job : call K) p s p' s' :
  next job p s = Some (p', s') → fits job p = true →
  persisting p' = false →
  match p with
  | Dumping _ => True
  | _ => persisting p = false
  end.
Proof.
  intros Hn Hfit Hp.
  destruct job, p; try discriminate Hfit; try done; unfold_stmt; simpl in *;
    repeat (case_match; simplify_eq/=); simplify_eq/=; done.
Qed.

Lemma step_setters pr i c c' :
  setters_and_getters pr (pool c) → step i c = Some c' →
  setters_and_getters pr (pool c').
Proof.
  intros Hs Hstep.
  apply step_inv in Hstep as (t & p' & s' & Et & Hn & ->). simpl.
  apply Forall_insert; [done|].
  apply (Forall_lookup_1 _ _ _ _ Hs Et).
Qed.

Lemma on_disk_dump s d :
  on_disk (set_fs (<[filename s := pickle_dump d]> (fs s)) s) = inr d.
Proof.
  unfold on_disk. simpl. rewrite lookup_insert_eq.
  by rewrite pickle_load_dump.
Qed.

Lemma on_disk_same s s' :
  fs s' = fs s → filename s' = filename s → on_disk s' = on_disk s.
Proof. unfold on_disk. by intros -> ->. Qed.

Lemma persisting_writing p : persisting p = true → writing p = true.
Proof. by destruct p. Qed.

Lemma step_threads pr limit i c c' :
  balanced limit c → sound limit c → observed c →
  setters_and_getters pr (pool c) → agrees pr c → kept pr c →
  step i c = Some c' →
  agrees pr c' ∧ kept pr c'.
Proof.
  intros Hb Hs Ho Hsg Ha Hk Hstep.
  apply step_inv in Hstep as (t & p' & s' & Et & Hn & ->).
  destruct Hs as (_ & _ & _ & _ & _ & _ & _ & _ & _ & _ & _ & _ & _ & Hf).
  pose proof (Forall_lookup_1 _ _ _ _ Hf Et) as Hfit. simpl in Hfit.
  destruct (Forall_lookup_1 _ _ _ _ Hsg Et) as [Hpr Hnd].
  assert (i < length (pool c)) as Hlt by (by eapply lookup_lt_Some).
  pose proof (next_data _ _ _ _ _ Hn Hnd) as Hdata.
  pose proof (next_fs _ _ _ _ _ Hn) as [Hfn Hfs].
  pose proof (balanced_exclusive _ _ Hb) as Hex.
  simpl in Hdata, Hfn, Hfs.
  rewrite Hpr in *.
  (* the assignment in a reader's [load] puts back what is there *)
  assert (∀ d, at_pc t = Assigning d → d = heaps c pr) as Hassign.
  { intros d Ep. pose proof (Ho i t Et) as Hoi. rewrite Ep in Hoi.
    simpl in Hoi. rewrite Ha in Hoi; [congruence|].
    apply Forall_lookup. intros j tj Ej.
    destruct (persisting (at_pc tj)) eqn:Hp; [|done].
    apply persisting_writing in Hp.
    pose proof (Hex j i tj t Ej Et Hp) as Hr. by rewrite Ep in Hr. }
  (* no binding of [self.data] is lost or changed *)
  assert (∀ key x, heaps c pr !! key = Some x → data s' !! key = Some x)
    as Hpres.
  { intros key x E.
    destruct (at_pc t) eqn:Ep; try (by rewrite Hdata).
    - destruct Hdata as (k & v & _ & _ & ->). by apply set_value_keeps.
    - rewrite Hdata. by rewrite (Hassign _ eq_refl). }
  split.
  - (* agrees *)
    intros Hnp. simpl in *. rewrite fn_lookup_insert.
    assert (persisting p' = false) as Hp'.
    { apply (Forall_lookup_1 _ _ _ _ Hnp
               (list_lookup_insert_eq _ _ _ Hlt)). }
    assert (∀ j tj, j ≠ i → pool c !! j = Some tj →
              persisting (at_pc tj) = false) as Hothers.
    { intros j tj Hne Ej. apply (Forall_lookup_1 _ _ j tj Hnp).
      by rewrite list_lookup_insert_ne. }
    pose proof (next_persisting _ _ _ _ _ Hn Hfit Hp') as Hp.
    destruct (at_pc t) eqn:Ep; simpl in Hp; try discriminate Hp.
    all: try (rewrite Hdata;
              rewrite (on_disk_same (shared c) s') by done;
              apply Ha, Forall_lookup; intros j' tj Ej;
              destruct (decide (j' = i)) as [->|Hne];
              [rewrite Et in Ej; injection Ej as <-; by rewrite Ep
              |by eapply Hothers]).
    + (* the mutation: the call is now persisting *)
      destruct Hdata as (k & v & _ & -> & _). done.
    + (* the dump *)
      rewrite Hdata. destruct s'; simpl in *. subst.
      unfold on_disk. simpl. rewrite lookup_insert_eq.
      by rewrite pickle_load_dump.
    + (* the assignment *)
      rewrite Hdata, (Hassign _ eq_refl).
      rewrite (on_disk_same (shared c) s') by done.
      apply Ha, Forall_lookup. intros j tj Ej.
      destruct (decide (j = i)) as [->|Hne].
      * rewrite Et in Ej. injection Ej as <-. by rewrite Ep.
      * by eapply Hothers.
  - (* kept *)
    intros j tj key v r Ej Ejob Hr. simpl in *. rewrite fn_lookup_insert.
    destruct (decide (j = i)) as [->|Hne].
    + rewrite list_lookup_insert_eq in Ej by done.
      injection Ej as <-. simpl in *. rewrite Ejob in *.
      destruct (next_result _ _ _ _ _ _ _ Hn Hfit Hr) as [Ep|Hr0].
      * rewrite Ep in Hdata.
        destruct Hdata as (k' & v' & [= <- <-] & Ep' & ->).
        rewrite Ep' in Hr. injection Hr as <-.
        destruct (set_value_binds key v (heaps c pr)) as [Hb1 Hb2].
        split; [done|]. intros [= Hr]. by apply Hb2.
      * destruct (Hk i t key v r Et Ejob Hr0) as [[x Hx] Hv].
        split; [by rewrite (Hpres _ _ Hx)|].
        intros Hr'. by apply Hpres, Hv.
    + rewrite list_lookup_insert_ne in Ej by done.
      destruct (Hk j tj key v r Ej Ejob Hr) as [[x Hx] Hv].
      split; [by rewrite (Hpres _ _ Hx)|].
      intros Hr'. by apply Hpres, Hv.
Qed.

Lemma reachable_threads pr limit c0 c :
  balanced limit c0 → sound limit c0 → observed c0 →
  setters_and_getters pr (pool c0) → agrees pr c0 → kept pr c0 →
  rtc steps c0 c →
  agrees pr c ∧ kept pr c.
Proof.
  intros Hb Hs Ho Hsg Ha Hk Hr.
  induction Hr as [|c1 c2 c3 [i Hstep] _ IH]; [done|].
  destruct (step_threads pr limit i c1 c2) as [Ha' Hk']; try done.
  apply IH; try done.
  - by eapply step_balanced.
  - by eapply step_sound.
  - by eapply step_observed.
  - by eapply step_setters.
Qed.

(** X18. Threads of one process share [self.data].  For such calls,
    none of them a [value_delete], started on an idle store whose file
    unpickles to [self.data]: the key of every [value_set] that has returned
    is bound in [self.data], to the call's own value if it returned [True];
    and once all calls have returned the file unpickles to [self.data]. *)
Theorem no_lost_update_among_threads limit s hs pr (js : list (call K)) c :
  idle limit 0 s → on_disk s = inr (hs pr) →
  Forall (λ j, is_delete j = false) js →
  rtc steps (launch s hs ((λ j, (pr, j)) <$> js)) c →
  (∀ i t key v r,
     pool c !! i = Some t → job t = ValueSet key v →
     at_pc t = Returned r →
     is_Some (heaps c pr !! key) ∧
     (r = PyBool true → heaps c pr !! key = Some v)) ∧
  (all_returned c → on_disk (shared c) = inr (heaps c pr)).
Proof.
  intros Hidle Hdisk Hjs Hr.
  destruct (reachable_threads pr limit
              (launch s hs ((λ j, (pr, j)) <$> js)) c) as [Ha Hk];
    try exact Hr.
  - by apply launch_balanced.
  - by apply launch_sound.
  - apply launch_observed.
  - unfold launch. cbn [pool]. apply Forall_fmap, Forall_fmap.
    eapply Forall_impl; [|exact Hjs]. by intros j Hj.
  - by intros _.
  - intros i t key v r Ei _ Hres. unfold launch in Ei. cbn [pool] in Ei.
    apply list_lookup_fmap_Some in Ei as (pj & -> & _). done.
  - split.
    + intros i t key v r Ei Ejob Ep. apply (Hk i t key v r Ei Ejob).
      by rewrite Ep.
    + intros Hall. apply Ha.
      eapply Forall_impl; [|exact Hall].
      intros t Ht. simpl in Ht. by destruct (at_pc t).
Qed.

End Threads.

(** * The further properties at work *)

Lemma set_value_then_delete_witness :
  (∅ : gmap Z value) !! 0%Z = None ∧
  DataBase.delete 0%Z (DataBase.set_value 0%Z (PyInt 1) ∅).2
  = (PyInt 1, (∅ : gmap Z value)).
Proof.
  split; [reflexivity|].
  apply (set_value_then_delete 0%Z (PyInt 1) ∅). reflexivity.
Defined.

Lemma mutations_commute_witness :
  0%Z ≠ 1%Z ∧
  (DataBase.set_value 1%Z (PyInt 2)
     (DataBase.set_value 0%Z (PyInt 1) (∅ : gmap Z value)).2).2
  = (DataBase.set_value 0%Z (PyInt 1)
       (DataBase.set_value 1%Z (PyInt 2) (∅ : gmap Z value)).2).2.
Proof.
  split; [discriminate|].
  apply (mutations_commute 0%Z 1%Z (PyInt 1) (PyInt 2) ∅). discriminate.
Defined.

Lemma valid_mode_builds_idle_store_witness :
  ("processes" = "threads" ∨ "processes" = "processes") ∧
  ∃ s : State Z,
    SynchronizedDataBase.init "test.pkl" "processes" (fresh ∅) = Returns () s ∧
    idle 10 0 s.
Proof.
  split; [by right|].
  destruct (valid_mode_builds_idle_store (K := Z) "test.pkl" "processes" ∅)
    as (Hret & _ & _); [by right|].
  destruct (Hret _ eq_refl) as (s & E & Hidle & _).
  exists s. split; [exact E|exact Hidle].
Defined.

Lemma read_your_writes_witness :
  idle 10 0 Demo.store ∧ 0 < 10 + 0 ∧
  ∃ r s1 s2,
    SynchronizedDataBase.value_set 0%Z (PyInt 1) Demo.store = Returns r s1 ∧
    SynchronizedDataBase.value_get 0%Z s1
    = Returns (DataBase.get_value 0%Z
                 (DataBase.set_value 0%Z (PyInt 1) (data Demo.store)).2) s2.
Proof.
  assert (idle 10 0 Demo.store) as Hidle by (by vm_compute).
  split; [exact Hidle|]. split; [lia|].
  destruct (read_your_writes (H1 := ref_round_trip Z) 0%Z 0%Z (PyInt 1)
              10 0 Demo.store Hidle)
    as [(r & s1 & s2 & E1 & E2 & _) _]; [lia|].
  exists r, s1, s2. split; [exact E1|exact E2].
Defined.

Lemma stale_writer_loses_update_witness :
  idle 10 0 Demo.store ∧ 0 < 10 + 0 ∧ 0%Z ≠ 1%Z ∧
  data Demo.store !! 0%Z = None ∧
  ∃ rA sA1 rB sB1 sA2,
    SynchronizedDataBase.value_set 0%Z (PyInt 1) Demo.store = Returns rA sA1 ∧
    SynchronizedDataBase.value_set 1%Z (PyInt 2)
      (set_fs (fs sA1) Demo.store) = Returns rB sB1 ∧
    SynchronizedDataBase.value_get 0%Z (set_fs (fs sB1) sA1)
    = Returns PyNone sA2.
Proof.
  assert (idle 10 0 Demo.store) as Hidle by (by vm_compute).
  split; [exact Hidle|]. split; [lia|]. split; [discriminate|].
  split; [reflexivity|].
  apply (stale_writer_loses_update (H1 := ref_round_trip Z)
           0%Z 1%Z (PyInt 1) (PyInt 2) 10 0 10 0 Demo.store Demo.store
           Hidle Hidle); [lia|reflexivity|discriminate|reflexivity].
Defined.

Lemma failed_read_leaks_permit_witness :
  idle 10 0 MoreDemo.store_corrupted ∧
  fs MoreDemo.store_corrupted !! filename MoreDemo.store_corrupted
  = Some Garbage ∧
  ∃ s1 s2,
    SynchronizedDataBase.value_get 0%Z MoreDemo.store_corrupted
    = Raises UnpicklingError s1 ∧
    read_semaphore s1 = Some 9 ∧
    SynchronizedDataBase.value_set 0%Z (PyInt 1) s1 = Blocks s2.
Proof.
  assert (idle 10 0 MoreDemo.store_corrupted) as Hidle by (by vm_compute).
  split; [exact Hidle|]. split; [reflexivity|].
  destruct (failed_read_leaks_permit 0%Z 0%Z (PyInt 1) 9
              MoreDemo.store_corrupted Garbage UnpicklingError Hidle
              eq_refl eq_refl eq_refl)
    as (s1 & E1 & Es & _ & _ & s2 & s3 & E2 & _).
  exists s1, s2. split_and!; [exact E1|exact Es|exact E2].
Defined.

Lemma readers_are_bounded_witness :
  idle 10 0 Demo.store_on_pickle ∧
  pool_sum (λ p, Nat.b2n (Concurrent.reading p))
    (Concurrent.pool
       (Concurrent.run ConcurrentDemo.reader_first ConcurrentDemo.two_calls))
  ≤ 10.
Proof.
  assert (idle 10 0 Demo.store_on_pickle) as Hidle by (by vm_compute).
  split; [exact Hidle|].
  exact (readers_are_bounded 10 Demo.store_on_pickle
           (λ _, data Demo.store_on_pickle)
           [(0, Concurrent.ValueSet 1%Z (PyInt 2));
            (0, Concurrent.ValueGet 0%Z)]
           _ Hidle (run_reachable ConcurrentDemo.reader_first _)).
Defined.

Lemma each_lock_has_one_holder_witness :
  idle 10 0 Demo.store_on_pickle ∧
  (get_lock WriteLock
     (Concurrent.shared
        (Concurrent.run ConcurrentDemo.writer_first ConcurrentDemo.two_calls))
   = Some true ↔
   ∃ i t,
     Concurrent.pool
       (Concurrent.run ConcurrentDemo.writer_first ConcurrentDemo.two_calls)
     !! i = Some t ∧
     WriteLock ∈ holding (Concurrent.at_pc t)).
Proof.
  assert (idle 10 0 Demo.store_on_pickle) as Hidle by (by vm_compute).
  split; [exact Hidle|].
  exact (proj2 (each_lock_has_one_holder 10 Demo.store_on_pickle
                  (λ _, data Demo.store_on_pickle)
                  [(0, Concurrent.ValueSet 1%Z (PyInt 2));
                   (0, Concurrent.ValueGet 0%Z)]
                  _ WriteLock Hidle
                  (run_reachable ConcurrentDemo.writer_first _))).
Defined.


Lemma no_deadlock_witness :
  idle 10 0 Demo.store_on_pickle ∧ 0 < 10 ∧
  ¬ some_raised
      (Concurrent.run ConcurrentDemo.reader_first ConcurrentDemo.two_calls) ∧
  (all_returned
     (Concurrent.run ConcurrentDemo.reader_first ConcurrentDemo.two_calls) ∨
   ∃ i c',
     Concurrent.step i
       (Concurrent.run ConcurrentDemo.reader_first ConcurrentDemo.two_calls)
     = Some c').
Proof.
  assert (idle 10 0 Demo.store_on_pickle) as Hidle by (by vm_compute).
  assert (¬ some_raised
              (Concurrent.run ConcurrentDemo.reader_first
                 ConcurrentDemo.two_calls))
    as Hnr.
  { intros Hx. apply Exists_at in Hx. destruct Hx as (i & t & Et & Hx).
    apply (f_equal (fmap Concurrent.at_pc)) in Et.
    rewrite <- list_lookup_fmap in Et.
    rewrite reader_first_pcs in Et.
    destruct i as [|[|i]]; simpl in Et; [| |discriminate];
      injection Et as Et; rewrite <- Et in Hx; discriminate. }
  split; [exact Hidle|]. split; [lia|]. split; [exact Hnr|].
  apply (no_deadlock 10 Demo.store_on_pickle
           (λ _, data Demo.store_on_pickle)
           [(0, Concurrent.ValueSet 1%Z (PyInt 2));
            (0, Concurrent.ValueGet 0%Z)]
           _ Hidle); [lia|apply run_reachable|exact Hnr].
Defined.

Lemma no_lost_update_among_threads_witness :
  idle 10 0 Demo.store_on_pickle ∧
  on_disk Demo.store_on_pickle = inr (data Demo.store_on_pickle) ∧
  Forall (λ j, is_delete j = false) MoreDemo.calls ∧
  (all_returned (Concurrent.run ConcurrentDemo.both MoreDemo.threads) →
   on_disk
     (Concurrent.shared (Concurrent.run ConcurrentDemo.both MoreDemo.threads))
   = inr (Concurrent.heaps
            (Concurrent.run ConcurrentDemo.both MoreDemo.threads) 0)).
Proof.
  assert (idle 10 0 Demo.store_on_pickle) as Hidle by (by vm_compute).
  assert (Forall (λ j : Concurrent.call Z, is_delete j = false)
            MoreDemo.calls) as Hjs.
  { repeat constructor. }
  split; [exact Hidle|]. split; [reflexivity|]. split; [exact Hjs|].
  exact (proj2 (no_lost_update_among_threads (H1 := ref_round_trip Z)
                  10 Demo.store_on_pickle
                  (λ _, data Demo.store_on_pickle) 0 MoreDemo.calls
                  _ Hidle eq_refl Hjs
                  (run_reachable ConcurrentDemo.both MoreDemo.threads))).
Defined.
